(** * canvas: cmd/server/main.go

    A model of the server's entry point: the readers of the process
    environment, the AWS endpoint resolver, and the start/stop lifecycle
    that [start] drives through an [errgroup.Group] and a signal context. *)

From Stdlib Require Import ZArith Ascii String List Bool Lia.
From stdpp Require Import base option list strings gmap.

Local Open Scope string_scope.
Local Open Scope Z_scope.

(** ** Process environment and Go values *)

(** The process environment, as [os.LookupEnv] sees it: a finite map from
    variable names to values.  A lookup yields [(v, true)] for a variable
    that is set (also when it is set to the empty string) and [("", false)]
    otherwise; [None] stands for the second case. *)
Abbreviation Environ := (gmap string string).

Definition LookupEnv (E : Environ) (name : string) : option string := E !! name.

(** Go's [int] on the platforms the server is built for. *)
Definition intSize : Z := 64.
Definition minInt : Z := - 2 ^ (intSize - 1).
Definition maxInt : Z := 2 ^ (intSize - 1) - 1.

(** An [error] value is identified by its message; [nil] is [None]. *)
Definition error := string.

(** ** strconv.Atoi

    [Atoi s] is [ParseInt(s, 10, 0)] converted to [int]: an optional sign,
    then at least one decimal digit and nothing else, and a value that fits
    an [int].  [None] is a non-nil error (syntax or range). *)
Module strconv.

Definition digit (c : ascii) : option Z :=
  let n := Z.of_N (N_of_ascii c) in
  if (48 <=? n) && (n <=? 57) then Some (n - 48) else None.

Fixpoint digits (s : string) (acc : Z) : option Z :=
  match s with
  | EmptyString => Some acc
  | String c s' =>
      match digit c with
      | Some d => digits s' (acc * 10 + d)
      | None => None
      end
  end.

Definition ParseUint (s : string) : option Z :=
  match s with
  | EmptyString => None
  | _ => digits s 0
  end.

Definition Atoi (s : string) : option Z :=
  match s with
  | EmptyString => None
  | String c rest =>
      let '(neg, body) :=
        if Ascii.eqb c "+" then (false, rest)
        else if Ascii.eqb c "-" then (true, rest)
        else (false, s) in
      match ParseUint body with
      | None => None
      | Some un =>
          let n := if neg then - un else un in
          if (minInt <=? n) && (n <=? maxInt) then Some n else None
      end
  end.

End strconv.

(** ** getStringOrDefault, getIntOrDefault (main.go:131-149) *)

Definition getStringOrDefault (E : Environ) (name defaultV : string) : string :=
  match LookupEnv E name with
  | None => defaultV
  | Some v => v
  end.

Definition getIntOrDefault (E : Environ) (name : string) (defaultV : Z) : Z :=
  match LookupEnv E name with
  | None => defaultV
  | Some v =>
      match strconv.Atoi v with
      | None => defaultV
      | Some vAsInt => vAsInt
      end
  end.

(** ** createAWSEndpointResolver (main.go:117-129)

    Two things the function uses come from imported packages and are taken
    as given: the constant [sqs.ServiceID], and [env.GetStringOrDefault],
    the reader through which the endpoint URL is taken from the
    environment. *)

Module aws.
(** [aws.Endpoint]; the resolver sets no field but [URL], the others keep
    their zero values. *)
Record Endpoint := { URL : string }.
Definition zeroEndpoint : Endpoint := {| URL := "" |}.

Inductive ResolverError := EndpointNotFoundError.
End aws.

Section EndpointResolver.

Variable ServiceID : string.
Variable GetStringOrDefault : Environ → string → string → string.

(** The closure that [createAWSEndpointResolver] returns, for the URL it
    captured. *)
Definition resolveEndpoint (sqsEndpointURL : string) (service region : string)
  : aws.Endpoint * option aws.ResolverError :=
  if negb (String.eqb sqsEndpointURL "") && String.eqb service ServiceID
  then ({| aws.URL := sqsEndpointURL |}, None)
  else (aws.zeroEndpoint, Some aws.EndpointNotFoundError).

Definition createAWSEndpointResolver (E : Environ)
  : string → string → aws.Endpoint * option aws.ResolverError :=
  let sqsEndpointURL := GetStringOrDefault E "SQS_ENDPOINT_URL" "" in
  resolveEndpoint sqsEndpointURL.

End EndpointResolver.

(** ** createLogger (main.go:93-102)

    What [zap.NewProduction()] and [zap.NewDevelopment()] return is taken
    as given. *)

Module zap.
Inductive Logger := Production | Development | Nop.
End zap.

Section Loggers.

Variable NewProduction : option zap.Logger * option error.
Variable NewDevelopment : option zap.Logger * option error.

Definition createLogger (env : string) : option zap.Logger * option error :=
  if String.eqb env "production" then NewProduction
  else if String.eqb env "development" then NewDevelopment
  else (Some zap.Nop, None).

End Loggers.

(** ** createAWSLogAdapter (main.go:104-113)

    The adapter is the closure the function returns; what it does is the
    calls it makes on the sugared logger.  [logging.Classification] is a
    string type, and its constants [logging.Debug] and [logging.Warn] are
    taken as given. *)

Inductive SugarCall (V : Type) :=
| Debugf (format : string) (v : list V)
| Warnf (format : string) (v : list V).
Arguments Debugf {V} format v.
Arguments Warnf {V} format v.

Section LogAdapter.

Variable V : Type.
Variable Debug : string.
Variable Warn : string.

Definition createAWSLogAdapter (classification format : string) (v : list V)
  : list (SugarCall V) :=
  if String.eqb classification Debug then [Debugf format v]
  else if String.eqb classification Warn then [Warnf format v]
  else [].

End LogAdapter.

(** ** createDatabase, createQueue and the address of the server
    (main.go:44-45, 151-172)

    The readers of package [env] are taken as given, and so are the types
    of the logger and of the AWS configuration, which are passed on as
    they are.  A [time.Duration] is a number of nanoseconds. *)

Module time.
Definition Second : Z := 1000000000.
Definition Hour : Z := 3600 * Second.
End time.

Module storage.
Record NewDatabaseOptions (L : Type) := {
  Host : string;
  Port : Z;
  User : string;
  Password : string;
  Name : string;
  MaxOpenConnections : Z;
  MaxIdleConnections : Z;
  ConnectionMaxLifetime : Z;
  Log : L;
}.
End storage.

Module messaging.
Record NewQueueOptions (C L : Type) := {
  Config : C;
  Log : L;
  Name : string;
  WaitTime : Z;
}.
End messaging.

Section Settings.

Variable Logger : Type.
Variable Config : Type.
Variable GetStringOrDefault : Environ → string → string → string.
Variable GetIntOrDefault : Environ → string → Z → Z.
Variable GetDurationOrDefault : Environ → string → Z → Z.

(** The options that [createDatabase] hands to [storage.NewDatabase]. *)
Definition createDatabase (E : Environ) (log : Logger)
  : storage.NewDatabaseOptions Logger :=
  {| storage.Host := GetStringOrDefault E "DB_HOST" "localhost";
     storage.Port := GetIntOrDefault E "DB_PORT" 5432;
     storage.User := GetStringOrDefault E "DB_USER" "";
     storage.Password := GetStringOrDefault E "DB_PASSWORD" "";
     storage.Name := GetStringOrDefault E "DB_NAME" "";
     storage.MaxOpenConnections := GetIntOrDefault E "DB_MAX_OPEN_CONNECTIONS" 10;
     storage.MaxIdleConnections := GetIntOrDefault E "DB_MAX_IDLE_CONNECTIONS" 10;
     storage.ConnectionMaxLifetime :=
       GetDurationOrDefault E "DB_CONNECTION_MAX_LIFETIME" time.Hour;
     storage.Log := log |}.

(** The options that [createQueue] hands to [messaging.NewQueue]. *)
Definition createQueue (E : Environ) (log : Logger) (awsConfig : Config)
  : messaging.NewQueueOptions Config Logger :=
  {| messaging.Config := awsConfig;
     messaging.Log := log;
     messaging.Name := GetStringOrDefault E "QUEUE_NAME" "jobs";
     messaging.WaitTime := GetDurationOrDefault E "QUEUE_WAIT_TIME" (20 * time.Second) |}.

(** [host] and [port] of lines 44-45. *)
Definition host (E : Environ) : string := GetStringOrDefault E "HOST" "localhost".
Definition port (E : Environ) : Z := GetIntOrDefault E "PORT" 8080.

End Settings.

(** The variables that these settings are read from. *)
Definition setting_names : list string :=
  ["HOST"; "PORT"; "DB_HOST"; "DB_PORT"; "DB_USER"; "DB_PASSWORD"; "DB_NAME";
   "DB_MAX_OPEN_CONNECTIONS"; "DB_MAX_IDLE_CONNECTIONS";
   "DB_CONNECTION_MAX_LIFETIME"; "QUEUE_NAME"; "QUEUE_WAIT_TIME"].

(** ** start (main.go:30-91)

    [start] is one main goroutine and the two goroutines it hands to
    [eg.Go]; they meet at the errgroup (its wait group, its once-guarded
    first error, its cancel function) and at the context that
    [signal.NotifyContext] and [errgroup.WithContext] build.  The server
    behind [s.Start] and [s.Stop] and the operating system are the
    environment.  A run is a sequence of labelled steps, one goroutine or
    the environment moving at a time.

    Of the errgroup package (golang.org/x/sync v0.1.0 in go.mod) the model
    follows [Group.Go] and [Group.Wait]: [Go(f)] adds one to the wait group
    and runs f in a goroutine of its own, which hands a non-nil result to
    [errOnce.Do] (keep it as [g.err], call [g.cancel]) and then calls
    [g.done()]; [Wait] waits for the wait group, calls [g.cancel] and
    returns [g.err]. *)

(** What the two fallible constructors of the prologue return in this
    run. *)
Record World := {
  logger_result : option error;  (* createLogger("development"), line 33 *)
  config_result : option error;  (* config.LoadDefaultConfig, line 47 *)
}.

(** Where the main goroutine stands. *)
Inductive MainPc :=
| PcLogger                      (* line 33 *)
| PcConfig                      (* lines 44-54 *)
| PcNew                         (* line 56: server.New *)
| PcNotify                      (* lines 64-66 *)
| PcGoStart                     (* line 68: eg.Go of s.Start *)
| PcAwait                       (* line 76: <-ctx.Done() *)
| PcGoStop                      (* line 78: eg.Go of s.Stop *)
| PcWait                        (* line 86: inside eg.Wait() *)
| PcWaited (r : option error)   (* eg.Wait() returned r *)
| PcReturned (code : Z).        (* start returned code *)

(** The two functions given to [eg.Go]. *)
Inductive Phase := Start | Stop.

(** Where a goroutine of [eg.Go] stands. *)
Inductive Task :=
| TIdle                          (* eg.Go not called yet *)
| TSpawned                       (* goroutine created, f not entered *)
| TCalled                        (* inside s.Start() or s.Stop() *)
| TGot (r : option error)        (* the server's method returned r *)
| TRet (r : option error)        (* f logged and returned r *)
| TRecorded (r : option error)   (* errOnce.Do went by, g.done() is pending *)
| TDone (r : option error).      (* g.done() ran *)

Record State := {
  pc : MainPc;
  server : bool;         (* server.New has run *)
  notify : bool;         (* the signal handler of NotifyContext is installed *)
  sig_done : bool;       (* the signal context is cancelled *)
  eg_cancel : bool;      (* g.cancel has been called *)
  wg : nat;              (* g.wg *)
  errOnce : bool;        (* g.errOnce has fired *)
  gerr : option error;   (* g.err *)
  t_start : Task;
  t_stop : Task;
  start_calls : nat;     (* invocations of s.Start() *)
  stop_calls : nat;      (* invocations of s.Stop() *)
  log : list (string * error);  (* what was printed or logged, in order *)
}.

Definition init : State :=
  {| pc := PcLogger; server := false; notify := false; sig_done := false;
     eg_cancel := false; wg := 0%nat; errOnce := false; gerr := None;
     t_start := TIdle; t_stop := TIdle; start_calls := 0%nat;
     stop_calls := 0%nat; log := [] |}.

(** The context that [errgroup.WithContext] derives from the signal
    context: done when its parent is, or when the group cancels it. *)
Definition ctx_done (s : State) : bool := sig_done s || eg_cancel s.

Definition set_pc (p : MainPc) (s : State) : State :=
  {| pc := p; server := server s; notify := notify s; sig_done := sig_done s;
     eg_cancel := eg_cancel s; wg := wg s; errOnce := errOnce s; gerr := gerr s;
     t_start := t_start s; t_stop := t_stop s; start_calls := start_calls s;
     stop_calls := stop_calls s; log := log s |}.

Definition set_server (b : bool) (s : State) : State :=
  {| pc := pc s; server := b; notify := notify s; sig_done := sig_done s;
     eg_cancel := eg_cancel s; wg := wg s; errOnce := errOnce s; gerr := gerr s;
     t_start := t_start s; t_stop := t_stop s; start_calls := start_calls s;
     stop_calls := stop_calls s; log := log s |}.

Definition set_notify (b : bool) (s : State) : State :=
  {| pc := pc s; server := server s; notify := b; sig_done := sig_done s;
     eg_cancel := eg_cancel s; wg := wg s; errOnce := errOnce s; gerr := gerr s;
     t_start := t_start s; t_stop := t_stop s; start_calls := start_calls s;
     stop_calls := stop_calls s; log := log s |}.

Definition set_sig_done (b : bool) (s : State) : State :=
  {| pc := pc s; server := server s; notify := notify s; sig_done := b;
     eg_cancel := eg_cancel s; wg := wg s; errOnce := errOnce s; gerr := gerr s;
     t_start := t_start s; t_stop := t_stop s; start_calls := start_calls s;
     stop_calls := stop_calls s; log := log s |}.

Definition set_wg (n : nat) (s : State) : State :=
  {| pc := pc s; server := server s; notify := notify s; sig_done := sig_done s;
     eg_cancel := eg_cancel s; wg := n; errOnce := errOnce s; gerr := gerr s;
     t_start := t_start s; t_stop := t_stop s; start_calls := start_calls s;
     stop_calls := stop_calls s; log := log s |}.

Definition add_log (m : string) (e : error) (s : State) : State :=
  {| pc := pc s; server := server s; notify := notify s; sig_done := sig_done s;
     eg_cancel := eg_cancel s; wg := wg s; errOnce := errOnce s; gerr := gerr s;
     t_start := t_start s; t_stop := t_stop s; start_calls := start_calls s;
     stop_calls := stop_calls s; log := log s ++ [(m, e)] |}.

Definition task (k : Phase) (s : State) : Task :=
  match k with Start => t_start s | Stop => t_stop s end.

Definition set_task (k : Phase) (t : Task) (s : State) : State :=
  {| pc := pc s; server := server s; notify := notify s; sig_done := sig_done s;
     eg_cancel := eg_cancel s; wg := wg s; errOnce := errOnce s; gerr := gerr s;
     t_start := match k with Start => t | Stop => t_start s end;
     t_stop := match k with Start => t_stop s | Stop => t end;
     start_calls := start_calls s; stop_calls := stop_calls s; log := log s |}.

(** Entering [s.Start()] or [s.Stop()]. *)
Definition call (k : Phase) (s : State) : State :=
  {| pc := pc s; server := server s; notify := notify s; sig_done := sig_done s;
     eg_cancel := eg_cancel s; wg := wg s; errOnce := errOnce s; gerr := gerr s;
     t_start := t_start s; t_stop := t_stop s;
     start_calls := match k with Start => S (start_calls s) | Stop => start_calls s end;
     stop_calls := match k with Start => stop_calls s | Stop => S (stop_calls s) end;
     log := log s |}.

(** [g.cancel()]: of [errgroup]'s cancel function only the first call has
    an effect. *)
Definition cancel (s : State) : State :=
  {| pc := pc s; server := server s; notify := notify s; sig_done := sig_done s;
     eg_cancel := true; wg := wg s; errOnce := errOnce s; gerr := gerr s;
     t_start := t_start s; t_stop := t_stop s; start_calls := start_calls s;
     stop_calls := stop_calls s; log := log s |}.

(** [g.errOnce.Do(func() { g.err = err; g.cancel() })]. *)
Definition once_record (e : error) (s : State) : State :=
  if errOnce s then s
  else cancel
    {| pc := pc s; server := server s; notify := notify s; sig_done := sig_done s;
       eg_cancel := eg_cancel s; wg := wg s; errOnce := true; gerr := Some e;
       t_start := t_start s; t_stop := t_stop s; start_calls := start_calls s;
       stop_calls := stop_calls s; log := log s |}.

(** [eg.Go(f)]: [g.wg.Add(1)], then the goroutine is created. *)
Definition eg_Go (k : Phase) (s : State) : State :=
  set_task k TSpawned (set_wg (S (wg s)) s).

(** The message that f logs when the server's method fails (lines 70, 80). *)
Definition fail_message (k : Phase) : string :=
  match k with
  | Start => "Error starting server"
  | Stop => "Error stopping server"
  end.

(** The exit status chosen at lines 86-90. *)
Definition exit_code (r : option error) : Z :=
  match r with
  | Some _ => 1
  | None => 0
  end.

(** One step of the main goroutine; [None] when it is blocked or has
    returned. *)
Definition main_step (w : World) (s : State) : option State :=
  match pc s with
  | PcLogger =>
      match logger_result w with
      | Some e => Some (set_pc (PcReturned 1) (add_log "Error setting up logger: " e s))
      | None => Some (set_pc PcConfig s)
      end
  | PcConfig =>
      match config_result w with
      | Some e => Some (set_pc (PcReturned 1) (add_log "Error creating AWS config" e s))
      | None => Some (set_pc PcNew s)
      end
  | PcNew => Some (set_pc PcNotify (set_server true s))
  | PcNotify => Some (set_pc PcGoStart (set_notify true s))
  | PcGoStart => Some (set_pc PcAwait (eg_Go Start s))
  | PcAwait => if ctx_done s then Some (set_pc PcGoStop s) else None
  | PcGoStop => Some (set_pc PcWait (eg_Go Stop s))
  | PcWait =>
      (* g.wg.Wait(); g.cancel(); return g.err *)
      if Nat.eqb (wg s) 0 then Some (set_pc (PcWaited (gerr s)) (cancel s)) else None
  | PcWaited r =>
      (* the deferred stop() of NotifyContext runs on the way out *)
      Some (set_pc (PcReturned (exit_code r)) (set_notify false s))
  | PcReturned _ => None
  end.

(** One step of the goroutine that [eg.Go] created for phase [k]:
    enter the server's method; log its error and return it from f;
    record it in the group; [g.done()]. *)
Definition task_step (k : Phase) (s : State) : option State :=
  match task k s with
  | TIdle => None
  | TSpawned => Some (set_task k TCalled (call k s))
  | TCalled => None
  | TGot r =>
      Some (set_task k (TRet r)
              match r with
              | Some e => add_log (fail_message k) e s
              | None => s
              end)
  | TRet r =>
      Some (set_task k (TRecorded r)
              match r with
              | Some e => once_record e s
              | None => s
              end)
  | TRecorded r => Some (set_task k (TDone r) (set_wg (pred (wg s)) s))
  | TDone _ => None
  end.

(** The server, as far as [start] can tell: when its [Start] and [Stop]
    may return, and with what.  It may look at the whole state, for
    example at whether [Stop] has been called. *)
Record Component := {
  may_return : Phase → State → option error → bool;
}.

(** Any server at all. *)
Definition any_component : Component := {| may_return := λ _ _ _, true |}.

(** A server whose [Start] blocks until [Stop] has been called, and whose
    [Start] and [Stop] then return nil. *)
Definition gated_component : Component :=
  {| may_return := λ k s r,
       match k, r with
       | Start, None => Nat.ltb 0 (stop_calls s)
       | Stop, None => true
       | _, Some _ => false
       end |}.

Inductive Label :=
| Main                                   (* the main goroutine moves *)
| Go (k : Phase)                         (* a goroutine of eg.Go moves *)
| Signal                                 (* SIGTERM or SIGINT is delivered *)
| Returns (k : Phase) (r : option error). (* s.Start() or s.Stop() returns r *)

(** A signal that arrives while the handler is not installed is not seen
    by [start] and is no step of it. *)
Definition exec (c : Component) (w : World) (l : Label) (s : State) : option State :=
  match l with
  | Main => main_step w s
  | Go k => task_step k s
  | Signal => if notify s then Some (set_sig_done true s) else None
  | Returns k r =>
      match task k s with
      | TCalled => if may_return c k s r then Some (set_task k (TGot r) s) else None
      | _ => None
      end
  end.

Fixpoint run (c : Component) (w : World) (tr : list Label) (s : State) : option State :=
  match tr with
  | [] => Some s
  | l :: tr' =>
      match exec c w l s with
      | Some s' => run c w tr' s'
      | None => None
      end
  end.

(** The steps of [start]'s own goroutines, as opposed to those of the
    environment. *)
Definition internal (l : Label) : bool :=
  match l with
  | Main | Go _ => true
  | Signal | Returns _ _ => false
  end.



(** ** Observations on states *)

(** What the server's method returned, once it has. *)
Definition result (t : Task) : option (option error) :=
  match t with
  | TIdle | TSpawned | TCalled => None
  | TGot r | TRet r | TRecorded r | TDone r => Some r
  end.

(** The error that phase [k] produced, if it has produced one. *)
Definition phase_error (k : Phase) (s : State) : option error :=
  match result (task k s) with
  | Some (Some e) => Some e
  | _ => None
  end.

(** The error that f has logged, and the error that has gone through
    [g.errOnce.Do]. *)
Definition logged (t : Task) : option error :=
  match t with
  | TRet r | TRecorded r | TDone r => r
  | _ => None
  end.

Definition recorded (t : Task) : option error :=
  match t with
  | TRecorded r | TDone r => r
  | _ => None
  end.

(** Goroutines that [g.wg] still counts, and calls of the server's method
    that a goroutine has made. *)
Definition active (t : Task) : nat :=
  match t with
  | TIdle | TDone _ => 0
  | _ => 1
  end.

Definition entered (t : Task) : nat :=
  match t with
  | TIdle | TSpawned => 0
  | _ => 1
  end.

Definition is_idle (t : Task) : bool :=
  match t with TIdle => true | _ => false end.

Definition is_done (t : Task) : bool :=
  match t with TDone _ => true | _ => false end.

(** The errors that can be found in the value [eg.Wait()] returns: the
    value itself, when it is not nil. *)
Definition wait_errors (r : option error) : list error :=
  match r with
  | Some e => [e]
  | None => []
  end.

(** No goroutine of [start] can move: each is blocked, not created yet, or
    finished. *)
Definition quiescent (w : World) (s : State) : Prop :=
  main_step w s = None ∧ ∀ k, task_step k s = None.

Definition returned (s : State) : bool :=
  match pc s with PcReturned _ => true | _ => false end.

(** A bound on the steps that are left.  A call of [eg.Go] takes the main
    goroutine one step on and gives a new goroutine its steps to make, so
    it stands higher by more than those. *)
Definition pc_rank (p : MainPc) : nat :=
  match p with
  | PcLogger => 19 | PcConfig => 18 | PcNew => 17 | PcNotify => 16
  | PcGoStart => 15 | PcAwait => 9 | PcGoStop => 8 | PcWait => 2
  | PcWaited _ => 1 | PcReturned _ => 0
  end.

Definition task_rank (t : Task) : nat :=
  match t with
  | TIdle => 6 | TSpawned => 5 | TCalled => 4 | TGot _ => 3
  | TRet _ => 2 | TRecorded _ => 1 | TDone _ => 0
  end.

Definition rank (s : State) : nat :=
  pc_rank (pc s) + task_rank (t_start s) + task_rank (t_stop s).

Definition reachable (c : Component) (w : World) (s : State) : Prop :=
  ∃ tr, run c w tr init = Some s.

(** The state after a run; [init] when the run is not one. *)
Definition after (c : Component) (w : World) (tr : list Label) : State :=
  default init (run c w tr init).

(** ** Invariant of the reachable states *)

Definition pc_shape (w : World) (s : State) : Prop :=
  match pc s with
  | PcLogger =>
      server s = false ∧ notify s = false ∧ t_start s = TIdle ∧ t_stop s = TIdle
  | PcConfig =>
      logger_result w = None ∧
      server s = false ∧ notify s = false ∧ t_start s = TIdle ∧ t_stop s = TIdle
  | PcNew =>
      logger_result w = None ∧ config_result w = None ∧
      server s = false ∧ notify s = false ∧ t_start s = TIdle ∧ t_stop s = TIdle
  | PcNotify =>
      server s = true ∧ notify s = false ∧ t_start s = TIdle ∧ t_stop s = TIdle
  | PcGoStart =>
      server s = true ∧ t_start s = TIdle ∧ t_stop s = TIdle
  | PcAwait =>
      server s = true ∧ is_idle (t_start s) = false ∧ t_stop s = TIdle
  | PcGoStop =>
      server s = true ∧ is_idle (t_start s) = false ∧ t_stop s = TIdle ∧
      ctx_done s = true
  | PcWait =>
      server s = true ∧ is_idle (t_start s) = false ∧ is_idle (t_stop s) = false ∧
      ctx_done s = true
  | PcWaited r =>
      server s = true ∧ is_done (t_start s) = true ∧ is_done (t_stop s) = true ∧
      r = gerr s ∧ ctx_done s = true
  | PcReturned code =>
      (server s = false ∧ t_start s = TIdle ∧ t_stop s = TIdle ∧ code = 1 ∧
       (logger_result w ≠ None ∨ config_result w ≠ None)) ∨
      (server s = true ∧ is_done (t_start s) = true ∧ is_done (t_stop s) = true ∧
       code = exit_code (gerr s) ∧ ctx_done s = true)
  end.

Definition is_set (o : option error) : bool :=
  match o with Some _ => true | None => false end.

(** [g.err] is the error of a goroutine that went through the once-guard;
    while it is nil none has. *)
Definition gerr_shape (s : State) : Prop :=
  match gerr s with
  | None => recorded (t_start s) = None ∧ recorded (t_stop s) = None
  | Some e => recorded (t_start s) = Some e ∨ recorded (t_stop s) = Some e
  end.

Definition logged_shape (k : Phase) (s : State) : Prop :=
  match logged (task k s) with
  | Some e => (fail_message k, e) ∈ log s
  | None => True
  end.

Record Inv (w : World) (s : State) : Prop := {
  inv_wg : wg s = (active (t_start s) + active (t_stop s))%nat;
  inv_start_calls : start_calls s = entered (t_start s);
  inv_stop_calls : stop_calls s = entered (t_stop s);
  inv_once : errOnce s = is_set (gerr s);
  inv_gerr : gerr_shape s;
  inv_gerr_cancel : is_set (gerr s) = true → eg_cancel s = true;
  inv_logged_start : logged_shape Start s;
  inv_logged_stop : logged_shape Stop s;
  inv_quiet :
    sig_done s = false → recorded (t_start s) = None →
    t_stop s = TIdle ∧ eg_cancel s = false;
  inv_world : server s = true → logger_result w = None ∧ config_result w = None;
  inv_pc : pc_shape w s;
}.

(** ** Further observations on runs *)

(** The steps of a run that are not deliveries of a signal. *)
Fixpoint moves (tr : list Label) : nat :=
  match tr with
  | [] => 0
  | Signal :: tr' => moves tr'
  | _ :: tr' => S (moves tr')
  end.

(** The stretch of [start] over which the handler of
    [signal.NotifyContext] is installed: from line 64 to the deferred
    [stop()]. *)
Definition handling (p : MainPc) : bool :=
  match p with
  | PcGoStart | PcAwait | PcGoStop | PcWait | PcWaited _ => true
  | _ => false
  end.





(** While no signal has arrived, an error in [g.err] is the one of
    [s.Start()]. *)
Definition unsignalled_shape (s : State) : Prop :=
  sig_done s = false → ∀ e, gerr s = Some e → recorded (t_start s) = Some e.

(** ** Concrete runs *)

Definition ok_world : World :=
  {| logger_result := None; config_result := None |}.

Definition no_logger_world : World :=
  {| logger_result := Some "cannot build logger"; config_result := None |}.

Definition no_config_world : World :=
  {| logger_result := None; config_result := Some "no AWS region" |}.

(** The main goroutine up to [<-ctx.Done()], then the first goroutine up
    to its call of [s.Start()]. *)
Definition trace_serving : list Label :=
  [Main; Main; Main; Main; Main; Go Start].

(** A signal arrives while [s.Start()] is running; [s.Stop()] returns nil
    and then [s.Start()] does; everything is joined and [start] returns. *)
Definition trace_shutdown : list Label :=
  [Main; Main; Go Stop; Returns Stop None; Returns Start None;
   Go Stop; Go Stop; Go Stop; Go Start; Go Start; Go Start; Main; Main].

Definition trace_success : list Label :=
  trace_serving ++ Signal :: trace_shutdown.

(** [s.Start()] returns nil with no signal in sight, and its goroutine
    runs to its end. *)
Definition trace_start_nil : list Label :=
  trace_serving ++ [Returns Start None; Go Start; Go Start; Go Start].

(** [s.Start()] fails with "boom" with no signal in sight. *)
Definition trace_start_boom : list Label :=
  trace_serving ++ [Returns Start (Some "boom")].

(** ... the group cancels the context, [s.Stop()] is called and fails
    with "bang", and [eg.Wait()] returns. *)
Definition trace_boom_bang : list Label :=
  trace_start_boom ++
  [Go Start; Go Start; Main; Main; Go Stop; Returns Stop (Some "bang");
   Go Stop; Go Stop; Go Stop; Go Start; Main].

Definition trace_boom_bang_exit : list Label := trace_boom_bang ++ [Main].

(** A signal arrives first; [s.Stop()] fails with "bang" and is recorded
    before [s.Start()] fails with "boom". *)
Definition trace_bang_boom : list Label :=
  trace_serving ++
  [Signal; Main; Main; Go Stop; Returns Stop (Some "bang"); Go Stop; Go Stop;
   Returns Start (Some "boom"); Go Start; Go Start; Go Start; Go Stop; Main].

(** ** Proof automation for the invariant *)

Ltac inv_solve :=
  unfold gerr_shape, logged_shape, pc_shape, ctx_done in *; simpl in *;
  rewrite ?elem_of_app, ?list_elem_of_singleton;
  first [ done | lia | congruence
        | timeout 5 (intuition (simplify_eq/=; first [done | lia | congruence | tauto])) ].

Ltac inv_cases :=
  repeat match goal with
    | t : Task |- _ => destruct t; simpl in *
    | o : option error |- _ => destruct o; simpl in *
    end.


(** * Proofs *)

(** ** The invariant *)

Lemma inv_init w : Inv w init.
Proof. by constructor. Qed.

Lemma inv_exec c w l s s' :
  Inv w s → exec c w l s = Some s' → Inv w s'.
Proof.
  destruct s as [p sv nt sd ec n eo ge ts tp sc sp lg].
  intros [Hwg Hcs Hcp Honce Hgerr Hcancel Hls Hlp Hquiet Hworld Hpc] Hex.
  simpl in *.
  destruct l as [|k| |k r]; simpl in Hex.
  - unfold main_step, ctx_done in Hex; simpl in Hex.
    destruct p; simpl in *; repeat case_match; simplify_eq/=.
    all: constructor; simpl in *.
    all: try inv_solve.
    all: destruct ts, tp; simpl in *; try done; inv_solve.
  - unfold task_step, once_record in Hex.
    destruct k; simpl in Hex; repeat case_match; simplify_eq/=.
    all: constructor; simpl in *.
    all: try inv_solve.
    all: destruct p; simpl in *; try inv_solve.
    all: inv_cases; inv_solve.
  - destruct nt; simplify_eq/=.
    constructor; simpl in *; try inv_solve.
    all: destruct p; simpl in *; try inv_solve.
    all: inv_cases; inv_solve.
  - destruct k; simpl in Hex; repeat case_match; simplify_eq/=.
    all: constructor; simpl in *; try inv_solve.
    all: destruct p; simpl in *; try inv_solve.
    all: inv_cases; inv_solve.
Qed.

Lemma inv_run c w tr : ∀ s s', Inv w s → run c w tr s = Some s' → Inv w s'.
Proof.
  induction tr as [|l tr IH]; simpl; intros s s' Hs Hrun.
  - by simplify_eq.
  - destruct (exec c w l s) as [s1|] eqn:Hex; [|done].
    eauto using inv_exec.
Qed.

Lemma reachable_inv c w s : reachable c w s → Inv w s.
Proof. intros [tr Hrun]. eapply inv_run; [apply inv_init | exact Hrun]. Qed.

(** ** Runs *)

(** Every step but the delivery of a signal uses up rank. *)
Lemma exec_rank c w l s s' :
  exec c w l s = Some s' → l ≠ Signal → (rank s' < rank s)%nat.
Proof.
  destruct s as [p sv nt sd ec n eo ge ts tp sc sp lg].
  destruct l as [|k| |k r]; simpl; intros Hex Hl; [| | done |].
  - unfold main_step, rank in *; simpl in *.
    destruct p; repeat case_match; simplify_eq/=; lia.
  - unfold task_step, once_record, rank in *.
    destruct k; simpl in *; repeat case_match; simplify_eq/=; lia.
  - unfold rank. destruct k; simpl in *; repeat case_match; simplify_eq/=; lia.
Qed.

Lemma run_rank c w tr : ∀ s s',
  run c w tr s = Some s' → Forall (λ l, l ≠ Signal) tr →
  (rank s' + length tr ≤ rank s)%nat.
Proof.
  induction tr as [|l tr IH]; simpl; intros s s' Hrun Htr.
  - simplify_eq. lia.
  - destruct (exec c w l s) as [s1|] eqn:Hex; [|done].
    apply Forall_cons in Htr as [Hl Htr].
    pose proof (exec_rank _ _ _ _ _ Hex Hl). pose proof (IH _ _ Hrun Htr). lia.
Qed.

(** What a method has returned stays returned. *)
Lemma exec_result c w l s s' k r :
  Inv w s → exec c w l s = Some s' →
  result (task k s) = Some r → result (task k s') = Some r.
Proof.
  intros [_ _ _ _ _ _ _ _ _ _ Hpc]. revert Hpc. unfold pc_shape.
  destruct s as [p sv nt sd ec n eo ge ts tp sc sp lg].
  destruct l as [|k'| |k' r']; simpl; intros Hpc Hex.
  - unfold main_step in Hex; simpl in *.
    destruct p; repeat case_match; destruct_and?; simplify_eq/=;
      destruct k; simpl; done.
  - unfold task_step, once_record in Hex.
    destruct k'; simpl in *; repeat case_match; simplify_eq/=; destruct k; simpl; done.
  - case_match; simplify_eq/=. by destruct k.
  - destruct k'; simpl in *; repeat case_match; simplify_eq/=; destruct k; simpl; done.
Qed.

Lemma run_result c w tr k r : ∀ s s',
  Inv w s → run c w tr s = Some s' →
  result (task k s) = Some r → result (task k s') = Some r.
Proof.
  induction tr as [|l tr IH]; simpl; intros s s' Hs Hrun Hr; [by simplify_eq|].
  destruct (exec c w l s) as [s1|] eqn:Hex; [|done].
  eauto using exec_result, inv_exec.
Qed.

(** A goroutine that was created stays created. *)
Lemma exec_started c w l s s' k :
  exec c w l s = Some s' → is_idle (task k s) = false → is_idle (task k s') = false.
Proof.
  destruct s as [p sv nt sd ec n eo ge ts tp sc sp lg].
  destruct l as [|k'| |k' r']; simpl; intros Hex.
  - unfold main_step in Hex; simpl in *.
    destruct p; repeat case_match; simplify_eq/=; destruct k; simpl; try done.
  - unfold task_step, once_record in Hex.
    destruct k'; simpl in *; repeat case_match; simplify_eq/=; destruct k; simpl; done.
  - case_match; simplify_eq/=. by destruct k.
  - destruct k'; simpl in *; repeat case_match; simplify_eq/=; destruct k; simpl; done.
Qed.

Lemma run_started c w tr k : ∀ s s',
  run c w tr s = Some s' → is_idle (task k s) = false → is_idle (task k s') = false.
Proof.
  induction tr as [|l tr IH]; simpl; intros s s' Hrun Hr; [by simplify_eq|].
  destruct (exec c w l s) as [s1|] eqn:Hex; [|done].
  eauto using exec_started.
Qed.

(** The signal context, once cancelled, stays cancelled. *)
Lemma exec_sig_done c w l s s' :
  exec c w l s = Some s' → sig_done s = true → sig_done s' = true.
Proof.
  destruct s as [p sv nt sd ec n eo ge ts tp sc sp lg].
  destruct l as [|k'| |k' r']; simpl; intros Hex.
  - unfold main_step in Hex; simpl in *.
    destruct p; repeat case_match; simplify_eq/=; done.
  - unfold task_step, once_record in Hex.
    destruct k'; simpl in *; repeat case_match; simplify_eq/=; done.
  - case_match; by simplify_eq/=.
  - destruct k'; simpl in *; repeat case_match; simplify_eq/=; done.
Qed.

Lemma run_sig_done c w tr : ∀ s s',
  run c w tr s = Some s' → sig_done s = true → sig_done s' = true.
Proof.
  induction tr as [|l tr IH]; simpl; intros s s' Hrun Hr; [by simplify_eq|].
  destruct (exec c w l s) as [s1|] eqn:Hex; [|done].
  eauto using exec_sig_done.
Qed.

(** ** Quiescence *)

Lemma quiescent_dec w s :
  quiescent w s ∨ ∃ l s', internal l = true ∧ ∀ c, exec c w l s = Some s'.
Proof.
  destruct (main_step w s) as [s'|] eqn:Hm.
  { right. exists Main, s'. by split. }
  destruct (task_step Start s) as [s'|] eqn:H1.
  { right. exists (Go Start), s'. by split. }
  destruct (task_step Stop s) as [s'|] eqn:H2.
  { right. exists (Go Stop), s'. by split. }
  left. split; [done|]. by intros [].
Qed.

(** Left to themselves, the goroutines come to rest. *)
Lemma run_to_quiescence c w s :
  ∃ tr s', Forall (λ l, internal l = true) tr ∧
           run c w tr s = Some s' ∧ quiescent w s'.
Proof.
  remember (rank s) as n eqn:Hn. revert s Hn.
  induction (lt_wf n) as [n _ IH]; intros s ->.
  destruct (quiescent_dec w s) as [Hq|(l & s1 & Hl & Hex)].
  { exists [], s. split_and!; [constructor | done | done]. }
  assert (l ≠ Signal) as Hns by (by intros ->).
  pose proof (exec_rank _ _ _ _ _ (Hex c) Hns) as Hlt.
  destruct (IH _ Hlt s1 eq_refl) as (tr & s' & Htr & Hrun & Hq).
  exists (l :: tr), s'. split_and!; [by constructor | | done].
  simpl. by rewrite Hex.
Qed.

(** ** Reading the environment *)

Example Atoi_port : strconv.Atoi "8080" = Some 8080.
Proof. reflexivity. Qed.

Example Atoi_signed : strconv.Atoi "-15" = Some (-15) ∧ strconv.Atoi "+15" = Some 15.
Proof. split; reflexivity. Qed.

Example Atoi_syntax :
  strconv.Atoi "" = None ∧ strconv.Atoi "80a" = None ∧
  strconv.Atoi "-" = None ∧ strconv.Atoi " 80" = None ∧ strconv.Atoi "8_0" = None.
Proof. repeat split; reflexivity. Qed.

Example Atoi_range :
  strconv.Atoi "9223372036854775807" = Some maxInt ∧
  strconv.Atoi "9223372036854775808" = None ∧
  strconv.Atoi "-9223372036854775808" = Some minInt.
Proof. repeat split; reflexivity. Qed.

Lemma getStringOrDefault_set (E : Environ) name v d :
  LookupEnv E name = Some v → getStringOrDefault E name d = v.
Proof. unfold getStringOrDefault. by intros ->. Qed.

Lemma getIntOrDefault_set (E : Environ) name v n d :
  LookupEnv E name = Some v → strconv.Atoi v = Some n →
  getIntOrDefault E name d = n.
Proof. unfold getIntOrDefault. by intros -> ->. Qed.

(** C6: a variable that is not set in the environment reads as its
    default: [getStringOrDefault name d] is [d] and [getIntOrDefault name d]
    is [d]; neither fails. *)
Theorem getOrDefault_unset (E : Environ) (name ds : string) (di : Z) :
  LookupEnv E name = None →
  getStringOrDefault E name ds = ds ∧ getIntOrDefault E name di = di.
Proof.
  intros Hname. unfold getStringOrDefault, getIntOrDefault. by rewrite Hname.
Qed.

Lemma getOrDefault_unset_witness :
  LookupEnv {[ "HOST" := "example.org" ]} "PORT" = None ∧
  getStringOrDefault {[ "HOST" := "example.org" ]} "PORT" "8080" = "8080" ∧
  getIntOrDefault {[ "HOST" := "example.org" ]} "PORT" 8080 = 8080.
Proof.
  split; [reflexivity|].
  apply (getOrDefault_unset {[ "HOST" := "example.org" ]} "PORT" "8080" 8080).
  reflexivity.
Defined.

(** C8: a variable that is set to something [strconv.Atoi] rejects reads,
    through [getIntOrDefault], as the default; the parse error goes no
    further. *)
Theorem getIntOrDefault_unparsable (E : Environ) (name v : string) (d : Z) :
  LookupEnv E name = Some v → strconv.Atoi v = None →
  getIntOrDefault E name d = d.
Proof.
  intros Hname Hv. unfold getIntOrDefault. by rewrite Hname, Hv.
Qed.

Lemma getIntOrDefault_unparsable_witness :
  LookupEnv {[ "PORT" := "http" ]} "PORT" = Some "http" ∧
  strconv.Atoi "http" = None ∧
  getIntOrDefault {[ "PORT" := "http" ]} "PORT" 8080 = 8080.
Proof.
  split; [reflexivity|]. split; [reflexivity|].
  apply (getIntOrDefault_unparsable {[ "PORT" := "http" ]} "PORT" "http" 8080);
    reflexivity.
Defined.

(** ** The endpoint resolver *)

Lemma resolveEndpoint_custom ServiceID url region :
  url ≠ "" →
  resolveEndpoint ServiceID url ServiceID region = ({| aws.URL := url |}, None).
Proof.
  intros Hurl. unfold resolveEndpoint.
  rewrite String.eqb_refl. by apply String.eqb_neq in Hurl as ->.
Qed.

(** C10: the resolver answers with the URL read from SQS_ENDPOINT_URL, and
    no error, exactly when that URL is not empty and the service asked for
    is SQS; in every other case it answers [EndpointNotFoundError]. *)
Theorem endpoint_resolver_iff
    (ServiceID : string) (GetStringOrDefault : Environ → string → string → string)
    (E : Environ) (service region : string) :
  let url := GetStringOrDefault E "SQS_ENDPOINT_URL" "" in
  let r := createAWSEndpointResolver ServiceID GetStringOrDefault E service region in
  (r = ({| aws.URL := url |}, None) ↔ url ≠ "" ∧ service = ServiceID) ∧
  (¬ (url ≠ "" ∧ service = ServiceID) →
   r = (aws.zeroEndpoint, Some aws.EndpointNotFoundError)).
Proof.
  intros url r. subst r. unfold createAWSEndpointResolver, resolveEndpoint.
  fold url.
  destruct (String.eqb_spec url "") as [Hurl|Hurl];
    destruct (String.eqb_spec service ServiceID) as [Hsvc|Hsvc]; simpl.
  all: split; [split; [intros ?; by simplify_eq | by intros [? ?]] | intros Hn].
  all: first [done | by destruct Hn].
Qed.

Example endpoint_resolver_local :
  createAWSEndpointResolver "SQS" getStringOrDefault
    {[ "SQS_ENDPOINT_URL" := "http://localhost:4566" ]} "SQS" "eu-west-1"
  = ({| aws.URL := "http://localhost:4566" |}, None).
Proof. reflexivity. Qed.

Example endpoint_resolver_other_service :
  createAWSEndpointResolver "SQS" getStringOrDefault
    {[ "SQS_ENDPOINT_URL" := "http://localhost:4566" ]} "S3" "eu-west-1"
  = (aws.zeroEndpoint, Some aws.EndpointNotFoundError).
Proof. reflexivity. Qed.

Example endpoint_resolver_unset :
  createAWSEndpointResolver "SQS" getStringOrDefault ∅ "SQS" "eu-west-1"
  = (aws.zeroEndpoint, Some aws.EndpointNotFoundError).
Proof. reflexivity. Qed.

(** ** The runs of [start] *)

Example run_success :
  pc (after gated_component ok_world trace_success) = PcReturned 0.
Proof. vm_compute. reflexivity. Qed.

Example run_boom_bang :
  pc (after any_component ok_world trace_boom_bang) = PcWaited (Some "boom") ∧
  log (after any_component ok_world trace_boom_bang) =
    [("Error starting server", "boom"); ("Error stopping server", "bang")].
Proof. split; vm_compute; reflexivity. Qed.

Example run_no_logger :
  pc (after any_component no_logger_world [Main]) = PcReturned 1.
Proof. vm_compute. reflexivity. Qed.

Example run_no_config :
  pc (after any_component no_config_world [Main; Main]) = PcReturned 1.
Proof. vm_compute. reflexivity. Qed.

(** A signal before [signal.NotifyContext] is not a step of [start]. *)
Example run_early_signal :
  run any_component ok_world [Main; Main; Signal] init = None.
Proof. vm_compute. reflexivity. Qed.

(** C9: whatever the run, [start] returns 0 or 1 and nothing else. *)
Theorem exit_status_0_or_1 c w tr s code :
  run c w tr init = Some s → pc s = PcReturned code → code = 0 ∨ code = 1.
Proof.
  intros Hrun Hpc.
  assert (Inv w s) as [_ _ _ _ _ _ _ _ _ _ Hshape] by (apply (reachable_inv c); by exists tr).
  unfold pc_shape in Hshape. rewrite Hpc in Hshape.
  destruct Hshape as [(_ & _ & _ & -> & _)|(_ & _ & _ & -> & _)]; [by right|].
  destruct (gerr s); simpl; auto.
Qed.

Lemma exit_status_0_or_1_witness :
  run any_component ok_world trace_boom_bang_exit init
    = Some (after any_component ok_world trace_boom_bang_exit) ∧
  pc (after any_component ok_world trace_boom_bang_exit) = PcReturned 1 ∧
  (1 = 0 ∨ 1 = 1).
Proof.
  split; [vm_compute; reflexivity|]. split; [vm_compute; reflexivity|].
  apply (exit_status_0_or_1 any_component ok_world trace_boom_bang_exit
           (after any_component ok_world trace_boom_bang_exit) 1);
    vm_compute; reflexivity.
Defined.

(** C5: when the logger or the AWS configuration cannot be built, the
    server is never constructed, neither [s.Start()] nor [s.Stop()] is
    ever called, the only status [start] returns is 1, and it returns it
    within two steps of the main goroutine, waiting for nobody. *)
Theorem config_failure_exits c w tr s :
  logger_result w ≠ None ∨ config_result w ≠ None →
  run c w tr init = Some s →
  server s = false ∧ start_calls s = 0%nat ∧ stop_calls s = 0%nat ∧
  (∀ code, pc s = PcReturned code → code = 1) ∧
  (∃ n s', (n ≤ 2)%nat ∧ run c w (replicate n Main) s = Some s' ∧
           pc s' = PcReturned 1).
Proof.
  intros Hw Hrun.
  assert (¬ (logger_result w = None ∧ config_result w = None)) as Hbad
    by (intros [? ?]; by destruct Hw).
  clear Hw.
  assert (Inv w s) as [_ Hcs Hcp _ _ _ _ _ _ Hworld Hshape]
    by (apply (reachable_inv c); by exists tr).
  assert (server s = false) as Hsv.
  { destruct (server s); [|done]. by destruct Hbad, Hworld. }
  unfold pc_shape in Hshape.
  destruct (pc s) as [| | | | | | | | r|code] eqn:Hpc;
    try (destruct Hshape as (? & _); congruence).
  - (* line 33 *)
    destruct Hshape as (_ & _ & Hts & Htp).
    rewrite Hcs, Hcp, Hts, Htp. split_and!; try done.
    destruct (logger_result w) as [e|] eqn:Hl.
    + exists 1%nat. eexists. split; [lia|]. simpl. unfold main_step.
      by rewrite Hpc, Hl.
    + destruct (config_result w) as [e|] eqn:Hc; [|by destruct Hbad].
      exists 2%nat. eexists. split; [lia|]. simpl. unfold main_step.
      rewrite Hpc, Hl. simpl. by rewrite Hc.
  - (* line 47 *)
    destruct Hshape as (Hl & _ & _ & Hts & Htp).
    rewrite Hcs, Hcp, Hts, Htp. split_and!; try done.
    destruct (config_result w) as [e|] eqn:Hc; [|by destruct Hbad].
    exists 1%nat. eexists. split; [lia|]. simpl. unfold main_step.
    by rewrite Hpc, Hc.
  - (* line 56 is out of reach *)
    destruct Hshape as (Hl & Hc & _). by destruct Hbad.
  - (* returned *)
    destruct Hshape as [(_ & Hts & Htp & -> & _)|(? & _)]; [|congruence].
    rewrite Hcs, Hcp, Hts, Htp. split_and!; try done.
    + by intros ? [= <-].
    + exists 0%nat, s. split; [lia|]. by split.
Qed.

Lemma config_failure_exits_witness :
  (logger_result no_config_world ≠ None ∨ config_result no_config_world ≠ None) ∧
  run any_component no_config_world [Main] init
    = Some (after any_component no_config_world [Main]) ∧
  server (after any_component no_config_world [Main]) = false ∧
  start_calls (after any_component no_config_world [Main]) = 0%nat ∧
  stop_calls (after any_component no_config_world [Main]) = 0%nat ∧
  (∀ code, pc (after any_component no_config_world [Main]) = PcReturned code →
           code = 1) ∧
  (∃ n s', (n ≤ 2)%nat ∧
           run any_component no_config_world (replicate n Main)
             (after any_component no_config_world [Main]) = Some s' ∧
           pc s' = PcReturned 1).
Proof.
  split; [right; discriminate|]. split; [vm_compute; reflexivity|].
  apply (config_failure_exits any_component no_config_world [Main]
           (after any_component no_config_world [Main])).
  - right; discriminate.
  - vm_compute; reflexivity.
Defined.

(** C3: of a run that got as far as constructing the server, the status
    [start] returns is 0 exactly when neither [s.Start()] nor [s.Stop()]
    produced an error, and is not 0 exactly when one of them did. *)
Theorem exit_status_iff_no_error c w tr s code :
  run c w tr init = Some s → pc s = PcReturned code → server s = true →
  (code = 0 ↔ phase_error Start s = None ∧ phase_error Stop s = None) ∧
  (code ≠ 0 ↔ ∃ k e, phase_error k s = Some e).
Proof.
  intros Hrun Hpc Hsv.
  assert (Inv w s) as [_ _ _ _ Hgerr _ _ _ _ _ Hshape]
    by (apply (reachable_inv c); by exists tr).
  unfold pc_shape in Hshape. rewrite Hpc in Hshape.
  destruct Hshape as [(? & _)|(_ & Hd1 & Hd2 & -> & _)]; [congruence|].
  unfold gerr_shape in Hgerr. unfold phase_error. simpl.
  destruct (t_start s) as [| | | | | |r1] eqn:Hts; try done.
  destruct (t_stop s) as [| | | | | |r2] eqn:Htp; try done.
  simpl in *.
  destruct (gerr s) as [e|]; simpl.
  - split.
    + split; [done|]. intros [H1 H2]. destruct r1, r2; destruct Hgerr; congruence.
    + split; [|done]. intros _.
      destruct Hgerr as [->| ->]; [exists Start, e | exists Stop, e]; simpl.
      * by rewrite Hts.
      * by rewrite Htp.
  - destruct Hgerr as [-> ->]. split.
    + done.
    + split; [done|]. intros ([] & e & He); simpl in He.
      * by rewrite Hts in He.
      * by rewrite Htp in He.
Qed.

Lemma exit_status_iff_no_error_witness :
  run any_component ok_world trace_boom_bang_exit init
    = Some (after any_component ok_world trace_boom_bang_exit) ∧
  (1 = 0 ↔ phase_error Start (after any_component ok_world trace_boom_bang_exit) = None ∧
           phase_error Stop (after any_component ok_world trace_boom_bang_exit) = None) ∧
  (1 ≠ 0 ↔ ∃ k e, phase_error k (after any_component ok_world trace_boom_bang_exit) = Some e).
Proof.
  split; [vm_compute; reflexivity|].
  apply (exit_status_iff_no_error any_component ok_world trace_boom_bang_exit
           (after any_component ok_world trace_boom_bang_exit) 1);
    vm_compute; reflexivity.
Defined.

(** C4: in every state of every run, [s.Start()] and [s.Stop()] have each
    been called at most once, the goroutine that calls [s.Stop()] exists
    only if the context is done, and so [s.Stop()] has been called only if
    it is; when [start] has returned after calling [s.Start()], it has
    called [s.Stop()] exactly once; and once the context is done, the
    goroutines do not come to rest before [s.Stop()] has been called.
    Nothing is assumed of what [s.Start()] has done by then. *)
Theorem stop_follows_start c w tr s :
  run c w tr init = Some s →
  (start_calls s ≤ 1)%nat ∧ (stop_calls s ≤ 1)%nat ∧
  (is_idle (t_stop s) = false → ctx_done s = true) ∧
  (stop_calls s = 1%nat → ctx_done s = true) ∧
  (∀ code, pc s = PcReturned code → start_calls s = 1%nat → stop_calls s = 1%nat) ∧
  (ctx_done s = true → is_idle (t_start s) = false → quiescent w s →
   stop_calls s = 1%nat).
Proof.
  intros Hrun.
  assert (Inv w s) as [Hwg Hcs Hcp _ _ _ _ _ _ _ Hshape]
    by (apply (reachable_inv c); by exists tr).
  assert (is_idle (t_stop s) = false → ctx_done s = true) as Hctx.
  { unfold pc_shape in Hshape. intros Hidle.
    destruct (pc s); destruct_and?; destruct_or?; destruct_and?;
      try done; by destruct (t_stop s). }
  split_and!.
  - rewrite Hcs. destruct (t_start s); simpl; lia.
  - rewrite Hcp. destruct (t_stop s); simpl; lia.
  - done.
  - rewrite Hcp. intros Hp. apply Hctx. by destruct (t_stop s).
  - intros code Hpc. unfold pc_shape in Hshape. rewrite Hpc in Hshape.
    rewrite Hcs, Hcp.
    destruct Hshape as [(_ & -> & _)|(_ & _ & Hd & _)]; [done|].
    by destruct (t_stop s).
  - intros Hdone Hidle [Hmain Htask].
    pose proof (Htask Start) as Hstart. pose proof (Htask Stop) as Hstop.
    clear Htask Hctx Hrun. revert Hcp Hcs Hwg Hshape Hdone Hidle Hmain Hstart Hstop.
    unfold task_step, main_step, pc_shape.
    destruct s as [p sv nt sd ec n eo ge ts tp sc sp lg]; simpl.
    intros -> -> -> Hshape Hdone Hidle Hmain Hstart Hstop.
    destruct p; destruct_and?; simplify_eq/=; try done;
      try (by rewrite Hdone in Hmain).
    all: destruct ts, tp; simplify_eq/=; try done.
    all: by destruct_or?; destruct_and?.
Qed.

Lemma stop_follows_start_witness :
  run gated_component ok_world trace_success init
    = Some (after gated_component ok_world trace_success) ∧
  (start_calls (after gated_component ok_world trace_success) ≤ 1)%nat ∧
  (stop_calls (after gated_component ok_world trace_success) ≤ 1)%nat ∧
  (is_idle (t_stop (after gated_component ok_world trace_success)) = false →
   ctx_done (after gated_component ok_world trace_success) = true) ∧
  (stop_calls (after gated_component ok_world trace_success) = 1%nat →
   ctx_done (after gated_component ok_world trace_success) = true) ∧
  (∀ code, pc (after gated_component ok_world trace_success) = PcReturned code →
           start_calls (after gated_component ok_world trace_success) = 1%nat →
           stop_calls (after gated_component ok_world trace_success) = 1%nat) ∧
  (ctx_done (after gated_component ok_world trace_success) = true →
   is_idle (t_start (after gated_component ok_world trace_success)) = false →
   quiescent ok_world (after gated_component ok_world trace_success) →
   stop_calls (after gated_component ok_world trace_success) = 1%nat).
Proof.
  split; [vm_compute; reflexivity|].
  apply (stop_follows_start gated_component ok_world trace_success
           (after gated_component ok_world trace_success)).
  vm_compute; reflexivity.
Defined.

(** ** A server that returns nil, and only once it has been told to stop *)

(** The context, once done, stays done. *)
Lemma exec_ctx_done c w l s s' :
  exec c w l s = Some s' → ctx_done s = true → ctx_done s' = true.
Proof.
  unfold ctx_done.
  destruct s as [p sv nt sd ec n eo ge ts tp sc sp lg].
  destruct l as [|k'| |k' r']; simpl; intros Hex.
  - unfold main_step in Hex; simpl in *.
    destruct p; repeat case_match; simplify_eq/=; try done.
    intros _. by rewrite orb_true_r.
  - unfold task_step, once_record in Hex.
    destruct k'; simpl in *; repeat case_match; simplify_eq/=; try done.
    all: intros _; by rewrite orb_true_r.
  - case_match; by simplify_eq/=.
  - destruct k'; simpl in *; repeat case_match; simplify_eq/=; done.
Qed.

(** With the gated server no phase ever produces an error. *)
Lemma gated_exec_clean w l s s' :
  exec gated_component w l s = Some s' →
  (∀ k, phase_error k s = None) → ∀ k, phase_error k s' = None.
Proof.
  unfold phase_error.
  destruct s as [p sv nt sd ec n eo ge ts tp sc sp lg].
  intros Hex Hclean k.
  pose proof (Hclean Start) as H1; pose proof (Hclean Stop) as H2.
  clear Hclean. simpl in *.
  destruct l as [|k'| |k' r']; simpl in Hex.
  - unfold main_step in Hex; simpl in *.
    destruct k, p; simpl in *; repeat case_match; simplify_eq/=; done.
  - unfold task_step, once_record in Hex.
    destruct k', k; simpl in *; repeat case_match; simplify_eq/=; done.
  - destruct nt; simplify_eq/=. by destruct k.
  - destruct k', k; simpl in *; repeat case_match; simplify_eq/=; done.
Qed.

Lemma gated_run_clean w tr : ∀ s s',
  run gated_component w tr s = Some s' →
  (∀ k, phase_error k s = None) → ∀ k, phase_error k s' = None.
Proof.
  induction tr as [|l tr IH]; simpl; intros s s' Hrun Hclean; [by simplify_eq|].
  destruct (exec gated_component w l s) as [s1|] eqn:Hex; [|done].
  eauto using gated_exec_clean.
Qed.

(** Once the context is done, some goroutine or the server can move,
    until [start] has returned. *)
Lemma gated_progress w s :
  Inv w s → ctx_done s = true → returned s = false →
  ∃ l s', l ≠ Signal ∧ exec gated_component w l s = Some s'.
Proof.
  intros [Hwg _ Hcp _ _ _ _ _ _ _ Hshape]. revert Hwg Hcp Hshape.
  unfold pc_shape, returned.
  destruct s as [p sv nt sd ec n eo ge ts tp sc sp lg]; simpl.
  intros -> -> Hshape Hdone Hret.
  assert (∀ s', main_step w {| pc := p; server := sv; notify := nt; sig_done := sd;
             eg_cancel := ec; wg := active ts + active tp; errOnce := eo;
             gerr := ge; t_start := ts; t_stop := tp; start_calls := sc;
             stop_calls := entered tp; log := lg |} = Some s' →
          ∃ l s', l ≠ Signal ∧ exec gated_component w l
            {| pc := p; server := sv; notify := nt; sig_done := sd;
             eg_cancel := ec; wg := active ts + active tp; errOnce := eo;
             gerr := ge; t_start := ts; t_stop := tp; start_calls := sc;
             stop_calls := entered tp; log := lg |} = Some s') as Hmain.
  { intros s' Hs'. by exists Main, s'. }
  unfold main_step in Hmain; simpl in Hmain.
  destruct p; try done; try (by eapply Hmain); try (by rewrite Hdone in Hmain; eapply Hmain).
  - destruct (logger_result w); by eapply Hmain.
  - destruct (config_result w); by eapply Hmain.
  - destruct Hshape as (_ & Hts & Htp & _).
    destruct tp as [| | |r|r|r|r]; try done.
    + by exists (Go Stop); eexists.
    + by exists (Returns Stop None); eexists.
    + by exists (Go Stop); eexists.
    + by exists (Go Stop); eexists.
    + by exists (Go Stop); eexists.
    + destruct ts as [| | |r1|r1|r1|r1]; try done.
      * by exists (Go Start); eexists.
      * by exists (Returns Start None); eexists.
      * by exists (Go Start); eexists.
      * by exists (Go Start); eexists.
      * by exists (Go Start); eexists.
      * by eapply Hmain.
Qed.

Lemma recorded_phase_error k s e :
  recorded (task k s) = Some e → phase_error k s = Some e.
Proof. unfold phase_error. destruct (task k s); simpl; try done; by intros ->. Qed.

Lemma clean_gerr w s :
  Inv w s → (∀ k, phase_error k s = None) → gerr s = None.
Proof.
  intros [_ _ _ _ Hgerr _ _ _ _ _ _] Hclean. unfold gerr_shape in Hgerr.
  destruct (gerr s) as [e|]; [|done].
  destruct Hgerr as [He|He].
  - apply (recorded_phase_error Start) in He. by rewrite Hclean in He.
  - apply (recorded_phase_error Stop) in He. by rewrite Hclean in He.
Qed.

Lemma clean_exit_zero w s code :
  Inv w s → (∀ k, phase_error k s = None) → is_idle (t_start s) = false →
  pc s = PcReturned code → code = 0.
Proof.
  intros Hinv Hclean Hidle Hpc.
  pose proof (clean_gerr _ _ Hinv Hclean) as Hgerr.
  destruct Hinv as [_ _ _ _ _ _ _ _ _ _ Hshape].
  unfold pc_shape in Hshape. rewrite Hpc in Hshape.
  destruct Hshape as [(_ & Hts & _)|(_ & _ & _ & -> & _)].
  - by rewrite Hts in Hidle.
  - by rewrite Hgerr.
Qed.

Lemma gated_completes w s :
  Inv w s → (∀ k, phase_error k s = None) → ctx_done s = true →
  is_idle (t_start s) = false →
  ∃ tr s', Forall (λ l, l ≠ Signal) tr ∧
           run gated_component w tr s = Some s' ∧ pc s' = PcReturned 0.
Proof.
  remember (rank s) as n eqn:Hn. revert s Hn.
  induction (lt_wf n) as [n _ IH]; intros s -> Hinv Hclean Hdone Hidle.
  destruct (returned s) eqn:Hret.
  - unfold returned in Hret. destruct (pc s) as [| | | | | | | | |code] eqn:Hpc; try done.
    exists [], s. split_and!; [constructor | done |].
    rewrite Hpc. f_equal. by apply (clean_exit_zero w s).
  - destruct (gated_progress w s Hinv Hdone Hret) as (l & s1 & Hl & Hex).
    destruct (IH _ (exec_rank _ _ _ _ _ Hex Hl) s1 eq_refl) as (tr & s' & Htr & Hrun & Hpc).
    + eauto using inv_exec.
    + eauto using gated_exec_clean.
    + eauto using exec_ctx_done.
    + apply (exec_started _ _ _ _ _ Start Hex Hidle).
    + exists (l :: tr), s'. split_and!; [by constructor | | done].
      simpl. by rewrite Hex.
Qed.

Lemma init_clean k : phase_error k init = None.
Proof. by destruct k. Qed.

(** C7: with a server whose [Start] blocks until [Stop] has been called
    and whose [Start] and [Stop] then return nil, and a signal delivered
    while [s.Start()] is running: whatever happens next, [start] can return
    no status but 0; until it has returned, a goroutine or the server can
    always move; the moves are bounded in number; and a run to the return
    of 0 exists. *)
Theorem success_path w tr1 s1 tr2 s :
  run gated_component w tr1 init = Some s1 →
  t_start s1 = TCalled →
  run gated_component w (Signal :: tr2) s1 = Some s →
  (∀ code, pc s = PcReturned code → code = 0) ∧
  (returned s = false →
   ∃ l s', l ≠ Signal ∧ exec gated_component w l s = Some s') ∧
  (∀ tr3 s3, Forall (λ l, l ≠ Signal) tr3 →
             run gated_component w tr3 s = Some s3 → (length tr3 ≤ rank s)%nat) ∧
  (∃ tr3 s3, Forall (λ l, l ≠ Signal) tr3 ∧
             run gated_component w tr3 s = Some s3 ∧ pc s3 = PcReturned 0).
Proof.
  intros Hrun1 Hcalled Hrun2.
  assert (Inv w s1) as Hinv1 by (apply (reachable_inv gated_component); by exists tr1).
  assert (Inv w s) as Hinv by eauto using inv_run.
  assert (∀ k, phase_error k s = None) as Hclean.
  { eapply gated_run_clean; [exact Hrun2|].
    eapply gated_run_clean; [exact Hrun1|]. apply init_clean. }
  assert (is_idle (t_start s) = false) as Hidle.
  { apply (run_started _ _ _ Start _ _ Hrun2). simpl. by rewrite Hcalled. }
  assert (ctx_done s = true) as Hdone.
  { simpl in Hrun2. destruct (notify s1); [|done].
    unfold ctx_done. by rewrite (run_sig_done _ _ _ _ _ Hrun2). }
  split_and!.
  - intros code. by apply (clean_exit_zero w).
  - by apply gated_progress.
  - intros tr3 s3 Htr3 Hrun3. pose proof (run_rank _ _ _ _ _ Hrun3 Htr3). lia.
  - by apply gated_completes.
Qed.

Lemma success_path_witness :
  run gated_component ok_world trace_serving init
    = Some (after gated_component ok_world trace_serving) ∧
  t_start (after gated_component ok_world trace_serving) = TCalled ∧
  run gated_component ok_world (Signal :: trace_shutdown)
      (after gated_component ok_world trace_serving)
    = Some (after gated_component ok_world trace_success) ∧
  pc (after gated_component ok_world trace_success) = PcReturned 0 ∧
  (∀ code, pc (after gated_component ok_world trace_success) = PcReturned code →
           code = 0).
Proof.
  split; [vm_compute; reflexivity|]. split; [vm_compute; reflexivity|].
  split; [vm_compute; reflexivity|]. split; [vm_compute; reflexivity|].
  apply (success_path ok_world trace_serving
           (after gated_component ok_world trace_serving) trace_shutdown
           (after gated_component ok_world trace_success));
    vm_compute; reflexivity.
Defined.

(** ** When [s.Start()] returns before any signal *)

Lemma exec_sig_free c w l s s' :
  exec c w l s = Some s' → l ≠ Signal → sig_done s' = sig_done s.
Proof.
  destruct s as [p sv nt sd ec n eo ge ts tp sc sp lg].
  destruct l as [|k'| |k' r']; simpl; intros Hex Hl; [| |done|].
  - unfold main_step in Hex; simpl in *.
    destruct p; repeat case_match; simplify_eq/=; done.
  - unfold task_step, once_record in Hex.
    destruct k'; simpl in *; repeat case_match; simplify_eq/=; done.
  - destruct k'; simpl in *; repeat case_match; simplify_eq/=; done.
Qed.

Lemma run_sig_free c w tr : ∀ s s',
  run c w tr s = Some s' → Forall (λ l, l ≠ Signal) tr → sig_done s' = sig_done s.
Proof.
  induction tr as [|l tr IH]; simpl; intros s s' Hrun Htr; [by simplify_eq|].
  destruct (exec c w l s) as [s1|] eqn:Hex; [|done].
  apply Forall_cons in Htr as [Hl Htr].
  rewrite (IH _ _ Hrun Htr). eauto using exec_sig_free.
Qed.

(** After a nil from [s.Start()] the group leaves the context alone: as
    long as no signal arrives the context is not done and [s.Stop()] is not
    called. *)
Lemma start_nil_waits w s :
  Inv w s → result (t_start s) = Some None → sig_done s = false →
  ctx_done s = false ∧ stop_calls s = 0%nat.
Proof.
  intros [_ _ Hcp _ _ _ _ _ Hquiet _ _] Hres Hsig.
  destruct Hquiet as [Htp Hec]; [done| |].
  { destruct (t_start s); simpl in *; by simplify_eq. }
  unfold ctx_done. by rewrite Hsig, Hec, Hcp, Htp.
Qed.

Lemma start_nil_no_drain c w s tr' s' :
  Inv w s → result (t_start s) = Some None → sig_done s = false →
  Forall (λ l, l ≠ Signal) tr' → run c w tr' s = Some s' →
  ctx_done s' = false ∧ stop_calls s' = 0%nat.
Proof.
  intros Hinv Hres Hsig Htr Hrun. apply (start_nil_waits w).
  - eauto using inv_run.
  - apply (run_result _ _ _ Start _ _ _ Hinv Hrun Hres).
  - by rewrite (run_sig_free _ _ _ _ _ Hrun Htr).
Qed.

(** Refutation of C1 as stated: [s.Start()] returns nil before any signal
    and its goroutine is joined by nobody; in every continuation without a
    signal the context is still not done and [s.Stop()] has not been
    called. *)
Lemma start_nil_never_drains :
  run any_component ok_world trace_start_nil init
    = Some (after any_component ok_world trace_start_nil) ∧
  Forall (λ l, l ≠ Signal) trace_start_nil ∧
  result (t_start (after any_component ok_world trace_start_nil)) = Some None ∧
  ∀ tr' s',
    Forall (λ l, l ≠ Signal) tr' →
    run any_component ok_world tr' (after any_component ok_world trace_start_nil)
      = Some s' →
    ctx_done s' = false ∧ stop_calls s' = 0%nat.
Proof.
  split; [vm_compute; reflexivity|].
  split; [repeat constructor; discriminate|].
  split; [vm_compute; reflexivity|].
  intros tr' s' Htr Hrun.
  apply (start_nil_no_drain any_component ok_world
           (after any_component ok_world trace_start_nil) tr' s');
    [| vm_compute; reflexivity | vm_compute; reflexivity | exact Htr | exact Hrun].
  apply (reachable_inv any_component). exists trace_start_nil.
  vm_compute; reflexivity.
Qed.

Lemma phase_error_result k s e :
  phase_error k s = Some e ↔ result (task k s) = Some (Some e).
Proof.
  unfold phase_error. destruct (result (task k s)) as [[e'|]|]; naive_solver.
Qed.

(** Where the goroutines rest after an error from [s.Start()]. *)
Lemma start_error_rest w s e :
  Inv w s → phase_error Start s = Some e → quiescent w s →
  eg_cancel s = true ∧ ctx_done s = true ∧ stop_calls s = 1%nat.
Proof.
  intros [Hwg _ Hcp _ Hgerr Hcancel _ _ _ _ Hshape] Herr [Hmain Htask].
  pose proof (Htask Start) as Hstart. pose proof (Htask Stop) as Hstop.
  clear Htask. revert Hwg Hcp Hgerr Hcancel Hshape Herr Hmain Hstart Hstop.
  unfold task_step, main_step, pc_shape, gerr_shape, phase_error, ctx_done.
  destruct s as [p sv nt sd ec n eo ge ts tp sc sp lg]; simpl.
  intros -> -> Hgerr Hcancel Hshape Herr Hmain Hstart Hstop.
  destruct ts as [| | |r|r|r|r]; try done. simpl in *.
  destruct r as [e'|]; simplify_eq/=.
  assert (ec = true) as ->.
  { apply Hcancel. destruct ge; [done|]. by destruct Hgerr. }
  rewrite orb_true_r in *. split; [done|]. split; [done|].
  destruct p; destruct_and?; simplify_eq/=; try done.
  - destruct tp; simplify_eq/=; done.
  - destruct_or?; destruct_and?; [done|]. destruct tp; simplify_eq/=; done.
Qed.

(** C1, amended: once [s.Start()] has returned an error, the goroutines of
    [start], left to themselves and with no signal, reach a state in which
    the group has cancelled the context and [s.Stop()] has been called; and
    in whatever way the run goes on, they cannot come to rest before
    that. *)
Theorem start_error_drains c w tr s e :
  run c w tr init = Some s →
  phase_error Start s = Some e →
  (∃ tr' s', Forall (λ l, internal l = true) tr' ∧ run c w tr' s = Some s' ∧
             eg_cancel s' = true ∧ ctx_done s' = true ∧ stop_calls s' = 1%nat) ∧
  (∀ tr' s', run c w tr' s = Some s' → quiescent w s' →
             eg_cancel s' = true ∧ ctx_done s' = true ∧ stop_calls s' = 1%nat).
Proof.
  intros Hrun Herr.
  assert (Inv w s) as Hinv by (apply (reachable_inv c); by exists tr).
  assert (∀ tr' s', run c w tr' s = Some s' → quiescent w s' →
            eg_cancel s' = true ∧ ctx_done s' = true ∧ stop_calls s' = 1%nat) as Hrest.
  { intros tr' s' Hrun' Hq. apply (start_error_rest w s' e); [|  |done].
    - eauto using inv_run.
    - apply phase_error_result. apply phase_error_result in Herr.
      apply (run_result _ _ _ Start _ _ _ Hinv Hrun' Herr). }
  split; [|done].
  destruct (run_to_quiescence c w s) as (tr' & s' & Htr' & Hrun' & Hq).
  exists tr', s'. split; [done|]. split; [done|]. eauto.
Qed.

Lemma start_error_drains_witness :
  run any_component ok_world trace_start_boom init
    = Some (after any_component ok_world trace_start_boom) ∧
  sig_done (after any_component ok_world trace_start_boom) = false ∧
  phase_error Start (after any_component ok_world trace_start_boom) = Some "boom" ∧
  (∃ tr' s', Forall (λ l, internal l = true) tr' ∧
             run any_component ok_world tr'
               (after any_component ok_world trace_start_boom) = Some s' ∧
             eg_cancel s' = true ∧ ctx_done s' = true ∧ stop_calls s' = 1%nat).
Proof.
  split; [vm_compute; reflexivity|]. split; [vm_compute; reflexivity|].
  split; [vm_compute; reflexivity|].
  apply (start_error_drains any_component ok_world trace_start_boom
           (after any_component ok_world trace_start_boom) "boom");
    vm_compute; reflexivity.
Defined.

(** ** Errors of both phases *)

(** Refutation of C2 as stated: [s.Start()] fails with "boom" and
    [s.Stop()] with "bang"; [eg.Wait()] returns "boom", and "bang" is not
    in what it returns. *)
Lemma wait_returns_first_error_only :
  run any_component ok_world trace_boom_bang init
    = Some (after any_component ok_world trace_boom_bang) ∧
  phase_error Start (after any_component ok_world trace_boom_bang) = Some "boom" ∧
  phase_error Stop (after any_component ok_world trace_boom_bang) = Some "bang" ∧
  pc (after any_component ok_world trace_boom_bang) = PcWaited (Some "boom") ∧
  ¬ ("boom" ∈ wait_errors (Some "boom") ∧ "bang" ∈ wait_errors (Some "boom")).
Proof.
  split; [vm_compute; reflexivity|]. split; [vm_compute; reflexivity|].
  split; [vm_compute; reflexivity|]. split; [vm_compute; reflexivity|].
  simpl. intros [_ Hbang]. apply list_elem_of_singleton in Hbang. discriminate.
Qed.

(** Which of the two errors [eg.Wait()] returns is a matter of which
    goroutine reaches the once-guard first. *)
Example wait_returns_stop_error :
  pc (after any_component ok_world trace_bang_boom) = PcWaited (Some "bang") ∧
  phase_error Start (after any_component ok_world trace_bang_boom) = Some "boom".
Proof. split; vm_compute; reflexivity. Qed.

(** C2, amended: when [s.Start()] has produced [Ea] and [s.Stop()] has
    produced [Eb], [eg.Wait()] returns one error, [Ea] or [Eb]; [start]
    then returns 1; and both errors are in the log. *)
Theorem both_phase_errors c w tr s r Ea Eb :
  run c w tr init = Some s → pc s = PcWaited r →
  phase_error Start s = Some Ea → phase_error Stop s = Some Eb →
  (r = Some Ea ∨ r = Some Eb) ∧
  (∃ s', main_step w s = Some s' ∧ pc s' = PcReturned 1) ∧
  (fail_message Start, Ea) ∈ log s ∧ (fail_message Stop, Eb) ∈ log s.
Proof.
  intros Hrun Hpc Ha Hb.
  assert (Inv w s) as [_ _ _ _ Hgerr _ Hls Hlp _ _ Hshape]
    by (apply (reachable_inv c); by exists tr).
  revert Hpc Ha Hb Hgerr Hls Hlp Hshape.
  unfold main_step, pc_shape, gerr_shape, logged_shape, phase_error.
  destruct s as [p sv nt sd ec n eo ge ts tp sc sp lg]; simpl.
  intros -> Ha Hb Hgerr Hls Hlp (_ & Hd1 & Hd2 & -> & _).
  destruct ts as [| | | | | |r1]; try done.
  destruct tp as [| | | | | |r2]; try done.
  simpl in *. destruct r1 as [e1|]; [|done]. destruct r2 as [e2|]; [|done].
  simplify_eq. split_and!; try done.
  - destruct ge; [|by destruct Hgerr]. destruct Hgerr; simplify_eq; auto.
  - eexists. split; [done|]. simpl. destruct ge; [done|by destruct Hgerr].
Qed.

Lemma both_phase_errors_witness :
  run any_component ok_world trace_boom_bang init
    = Some (after any_component ok_world trace_boom_bang) ∧
  (Some "boom" = Some "boom" ∨ Some "boom" = Some "bang") ∧
  (∃ s', main_step ok_world (after any_component ok_world trace_boom_bang) = Some s' ∧
         pc s' = PcReturned 1) ∧
  (fail_message Start, "boom") ∈ log (after any_component ok_world trace_boom_bang) ∧
  (fail_message Stop, "bang") ∈ log (after any_component ok_world trace_boom_bang).
Proof.
  split; [vm_compute; reflexivity|].
  apply (both_phase_errors any_component ok_world trace_boom_bang
           (after any_component ok_world trace_boom_bang) (Some "boom") "boom" "bang");
    vm_compute; reflexivity.
Defined.

(** * Further properties of [start] *)

(** ** The status, over all runs *)

(** X1: [start] returns 0 exactly when the logger and the AWS
    configuration could be built and neither [s.Start()] nor [s.Stop()]
    produced an error. *)
Theorem exit_zero_iff_clean c w tr s code :
  run c w tr init = Some s → pc s = PcReturned code →
  (code = 0 ↔ logger_result w = None ∧ config_result w = None ∧
              phase_error Start s = None ∧ phase_error Stop s = None).
Proof.
  intros Hrun Hpc.
  assert (Inv w s) as [_ _ _ _ Hgerr _ _ _ _ Hworld Hshape]
    by (apply (reachable_inv c); by exists tr).
  revert Hpc Hgerr Hworld Hshape. unfold pc_shape, gerr_shape, phase_error.
  destruct s as [p sv nt sd ec n eo ge ts tp sc sp lg]; simpl.
  intros -> Hgerr Hworld [(-> & _ & _ & -> & Hbad)|(-> & Hd1 & Hd2 & -> & _)].
  - split; [done|]. intros (Hl & Hc & _). by destruct Hbad.
  - destruct Hworld as [Hl Hc]; [done|].
    destruct ts as [| | | | | |r1]; try done.
    destruct tp as [| | | | | |r2]; try done.
    simpl in *. destruct ge as [e|]; simpl.
    + split; [done|]. intros (_ & _ & H1 & H2).
      destruct r1, r2; destruct Hgerr; congruence.
    + by destruct Hgerr as [-> ->].
Qed.

Lemma exit_zero_iff_clean_witness :
  run gated_component ok_world trace_success init
    = Some (after gated_component ok_world trace_success) ∧
  pc (after gated_component ok_world trace_success) = PcReturned 0 ∧
  (0 = 0 ↔ logger_result ok_world = None ∧ config_result ok_world = None ∧
           phase_error Start (after gated_component ok_world trace_success) = None ∧
           phase_error Stop (after gated_component ok_world trace_success) = None).
Proof.
  split; [vm_compute; reflexivity|]. split; [vm_compute; reflexivity|].
  apply (exit_zero_iff_clean gated_component ok_world trace_success
           (after gated_component ok_world trace_success) 0);
    vm_compute; reflexivity.
Defined.

(** ** What is left behind at the return *)

(** X2: when [start] returns, the wait group is at zero and no goroutine
    of [eg.Go] is still under way: either none was created and neither
    method of the server was called, or both have finished and [s.Start()]
    and [s.Stop()] were called exactly once each; the second is the case
    exactly when the server was constructed. *)
Theorem return_joins_everything c w tr s code :
  run c w tr init = Some s → pc s = PcReturned code →
  wg s = 0%nat ∧
  (if server s
   then is_done (t_start s) = true ∧ is_done (t_stop s) = true ∧
        start_calls s = 1%nat ∧ stop_calls s = 1%nat
   else t_start s = TIdle ∧ t_stop s = TIdle ∧
        start_calls s = 0%nat ∧ stop_calls s = 0%nat).
Proof.
  intros Hrun Hpc.
  assert (Inv w s) as [Hwg Hcs Hcp _ _ _ _ _ _ _ Hshape]
    by (apply (reachable_inv c); by exists tr).
  unfold pc_shape in Hshape. rewrite Hpc in Hshape.
  rewrite Hwg, Hcs, Hcp.
  destruct Hshape as [(-> & -> & -> & _)|(-> & Hd1 & Hd2 & _)]; [done|].
  destruct (t_start s); try done. by destruct (t_stop s).
Qed.

Lemma return_joins_everything_witness :
  run any_component ok_world trace_boom_bang_exit init
    = Some (after any_component ok_world trace_boom_bang_exit) ∧
  wg (after any_component ok_world trace_boom_bang_exit) = 0%nat ∧
  start_calls (after any_component ok_world trace_boom_bang_exit) = 1%nat ∧
  stop_calls (after any_component ok_world trace_boom_bang_exit) = 1%nat.
Proof.
  split; [vm_compute; reflexivity|].
  pose proof (return_joins_everything any_component ok_world trace_boom_bang_exit
                (after any_component ok_world trace_boom_bang_exit) 1) as H.
  destruct H as (Hwg & _ & _ & Hs & Hp);
    [vm_compute; reflexivity | vm_compute; reflexivity |].
  split; [exact Hwg|]. split; [exact Hs | exact Hp].
Defined.

(** The handler is installed exactly over the stretch [handling]. *)
Lemma exec_handling c w l s s' :
  exec c w l s = Some s' → notify s = handling (pc s) → notify s' = handling (pc s').
Proof.
  destruct s as [p sv nt sd ec n eo ge ts tp sc sp lg].
  destruct l as [|k'| |k' r']; simpl; intros Hex.
  - unfold main_step in Hex; simpl in *.
    destruct p; repeat case_match; simplify_eq/=; done.
  - unfold task_step, once_record in Hex.
    destruct k'; simpl in *; repeat case_match; simplify_eq/=; done.
  - case_match; by simplify_eq/=.
  - destruct k'; simpl in *; repeat case_match; simplify_eq/=; done.
Qed.

Lemma run_handling c w tr : ∀ s s',
  run c w tr s = Some s' → notify s = handling (pc s) → notify s' = handling (pc s').
Proof.
  induction tr as [|l tr IH]; simpl; intros s s' Hrun Hs; [by simplify_eq|].
  destruct (exec c w l s) as [s1|] eqn:Hex; [|done].
  eauto using exec_handling.
Qed.

(** X3: a signal is a step of [start] exactly from
    [signal.NotifyContext] (line 64) to the deferred [stop()]: before, and
    once [start] has returned, with whatever status, the handler is not
    installed. *)
Theorem signal_window c w tr s :
  run c w tr init = Some s →
  (is_Some (exec c w Signal s) ↔ handling (pc s) = true) ∧
  (returned s = true → notify s = false).
Proof.
  intros Hrun.
  assert (notify s = handling (pc s)) as Hn by by apply (run_handling c w tr init).
  split.
  - simpl. rewrite Hn. destruct (handling (pc s)).
    + split; [done|]. intros _. by eexists.
    + split; [by intros [? ?]|done].
  - rewrite Hn. unfold returned. by destruct (pc s).
Qed.

Lemma signal_window_witness :
  run gated_component ok_world trace_serving init
    = Some (after gated_component ok_world trace_serving) ∧
  (is_Some (exec gated_component ok_world Signal
              (after gated_component ok_world trace_serving)) ↔
   handling (pc (after gated_component ok_world trace_serving)) = true).
Proof.
  split; [vm_compute; reflexivity|].
  apply (signal_window gated_component ok_world trace_serving
           (after gated_component ok_world trace_serving)).
  vm_compute; reflexivity.
Defined.

(** ** The log *)





(** ** Cancellation *)

Lemma run_ctx_done c w tr : ∀ s s',
  run c w tr s = Some s' → ctx_done s = true → ctx_done s' = true.
Proof.
  induction tr as [|l tr IH]; simpl; intros s s' Hrun Hs; [by simplify_eq|].
  destruct (exec c w l s) as [s1|] eqn:Hex; [|done].
  eauto using exec_ctx_done.
Qed.

(** X5: cancellation happens once and for good: a context that is done
    stays done however the run goes on, and a signal that arrives when
    the signal context is cancelled already changes nothing. *)
Theorem cancellation_is_one_shot c w tr s s' :
  run c w tr s = Some s' → ctx_done s = true →
  ctx_done s' = true ∧
  (sig_done s = true → ∀ s'', exec c w Signal s' = Some s'' → s'' = s').
Proof.
  intros Hrun Hdone. split; [by apply (run_ctx_done c w tr s)|].
  intros Hsig s'' Hex.
  pose proof (run_sig_done _ _ _ _ _ Hrun Hsig) as Hsig'.
  simpl in Hex. destruct (notify s'); [|done]. simplify_eq.
  destruct s'; simpl in *. by subst.
Qed.

Lemma cancellation_is_one_shot_witness :
  run gated_component ok_world [Main; Main]
      (after gated_component ok_world (trace_serving ++ [Signal]))
    = Some (after gated_component ok_world (trace_serving ++ [Signal; Main; Main])) ∧
  ctx_done (after gated_component ok_world (trace_serving ++ [Signal])) = true ∧
  ctx_done (after gated_component ok_world (trace_serving ++ [Signal; Main; Main]))
    = true.
Proof.
  split; [vm_compute; reflexivity|]. split; [vm_compute; reflexivity|].
  apply (cancellation_is_one_shot gated_component ok_world [Main; Main]
           (after gated_component ok_world (trace_serving ++ [Signal]))
           (after gated_component ok_world (trace_serving ++ [Signal; Main; Main])));
    vm_compute; reflexivity.
Defined.

(** ** Without a signal *)

Lemma exec_unsignalled c w l s s' :
  Inv w s → exec c w l s = Some s' → unsignalled_shape s → unsignalled_shape s'.
Proof.
  intros [_ _ _ Honce Hgerr _ _ _ Hquiet _ Hshape].
  revert Honce Hgerr Hquiet Hshape.
  unfold gerr_shape, pc_shape.
  destruct s as [p sv nt sd ec n eo ge ts tp sc sp lg]; simpl.
  intros Honce Hgerr Hquiet Hshape Hex.
  destruct l as [|k| |k r]; simpl in Hex.
  - unfold main_step in Hex; simpl in Hex.
    destruct p; simpl in *; repeat case_match; destruct_and?; simplify_eq/=.
    all: unfold unsignalled_shape; simpl; done.
  - unfold task_step, once_record in Hex.
    destruct k; simpl in Hex; repeat case_match; simplify_eq/=.
    all: unfold unsignalled_shape; simpl; try done.
    all: intros Hun Hsd e' He'.
    all: first [ by specialize (Hun Hsd _ eq_refl)
               | destruct Hgerr as [Hr _]; by destruct (Hquiet Hsd Hr) ].
  - destruct nt; simplify_eq/=. by unfold unsignalled_shape.
  - destruct k; simpl in Hex; repeat case_match; simplify_eq/=; done.
Qed.

Lemma run_unsignalled c w tr : ∀ s s',
  Inv w s → run c w tr s = Some s' → unsignalled_shape s → unsignalled_shape s'.
Proof.
  induction tr as [|l tr IH]; simpl; intros s s' Hinv Hrun Hs; [by simplify_eq|].
  destruct (exec c w l s) as [s1|] eqn:Hex; [|done].
  eauto using exec_unsignalled, inv_exec.
Qed.


(** X6: if [start] gets past [eg.Wait()] and no signal has arrived, then
    [s.Start()] has failed, the error that [eg.Wait()] returns is the one
    of [s.Start()], and the status is 1: without a signal [start] does not
    return 0 once the server is constructed. *)
Theorem unsignalled_return_is_start_failure c w tr s :
  run c w tr init = Some s → sig_done s = false →
  (∀ r, pc s = PcWaited r → ∃ e, r = Some e ∧ phase_error Start s = Some e) ∧
  (∀ code, pc s = PcReturned code → server s = true →
           code = 1 ∧ ∃ e, gerr s = Some e ∧ phase_error Start s = Some e).
Proof.
  intros Hrun Hsd.
  assert (Inv w s) as Hinv by (apply (reachable_inv c); by exists tr).
  assert (unsignalled_shape s) as Hun.
  { apply (run_unsignalled c w tr init); [apply inv_init | done |].
    by unfold unsignalled_shape. }
  assert (ctx_done s = true → ∃ e, gerr s = Some e ∧ phase_error Start s = Some e)
    as Hstart.
  { destruct Hinv as [_ _ _ _ Hgerr Hcancel _ _ Hquiet _ _].
    unfold ctx_done. rewrite Hsd. simpl. intros Hec.
    destruct (gerr s) as [e|] eqn:He.
    - exists e. split; [done|]. apply (recorded_phase_error Start). by apply Hun.
    - unfold gerr_shape in Hgerr. rewrite He in Hgerr. destruct Hgerr as [Hr _].
      destruct (Hquiet Hsd Hr) as [_ Hec']. congruence. }
  destruct Hinv as [_ _ _ _ _ _ _ _ _ _ Hshape]. unfold pc_shape in Hshape.
  split.
  - intros r Hpc. rewrite Hpc in Hshape. destruct Hshape as (_ & _ & _ & -> & Hdone).
    destruct (Hstart Hdone) as (e & He & Hph). exists e. by rewrite He.
  - intros code Hpc Hsv. rewrite Hpc in Hshape.
    destruct Hshape as [(? & _)|(_ & _ & _ & -> & Hdone)]; [congruence|].
    destruct (Hstart Hdone) as (e & He & Hph). rewrite He. split; [done|]. by exists e.
Qed.

Lemma unsignalled_return_is_start_failure_witness :
  run any_component ok_world trace_boom_bang init
    = Some (after any_component ok_world trace_boom_bang) ∧
  sig_done (after any_component ok_world trace_boom_bang) = false ∧
  (∀ r, pc (after any_component ok_world trace_boom_bang) = PcWaited r →
        ∃ e, r = Some e ∧
             phase_error Start (after any_component ok_world trace_boom_bang) = Some e).
Proof.
  split; [vm_compute; reflexivity|]. split; [vm_compute; reflexivity|].
  apply (unsignalled_return_is_start_failure any_component ok_world trace_boom_bang
           (after any_component ok_world trace_boom_bang));
    vm_compute; reflexivity.
Defined.

(** ** Where [start] can be stuck, and for how long it can run *)

(** X7: when no goroutine of [start] can move and [start] has not
    returned, either a call of [s.Start()] or [s.Stop()] has not come back
    yet, or the main goroutine stands at [<-ctx.Done()] with the context
    not done after [s.Start()] returned nil.  [start] waits for nothing
    else. *)
Theorem rest_states c w tr s :
  run c w tr init = Some s → quiescent w s → returned s = false →
  t_start s = TCalled ∨ t_stop s = TCalled ∨
  (pc s = PcAwait ∧ ctx_done s = false ∧ t_start s = TDone None).
Proof.
  intros Hrun [Hmain Htask] Hret.
  assert (Inv w s) as [Hwg _ _ _ Hgerr Hcancel _ _ _ _ Hshape]
    by (apply (reachable_inv c); by exists tr).
  pose proof (Htask Start) as Hstart. pose proof (Htask Stop) as Hstop.
  clear Htask Hrun.
  revert Hwg Hgerr Hcancel Hshape Hret Hmain Hstart Hstop.
  unfold task_step, main_step, pc_shape, gerr_shape, returned, ctx_done.
  destruct s as [p sv nt sd ec n eo ge ts tp sc sp lg]; simpl.
  intros -> Hgerr Hcancel Hshape Hret Hmain Hstart Hstop.
  destruct p; destruct_and?; simplify_eq/=; try done.
  - destruct (logger_result w); done.
  - destruct (config_result w); done.
  - destruct ts as [| | |r|r|r|r]; try done; [by left|].
    right; right. destruct (sd || ec) eqn:Hd; [done|].
    apply orb_false_elim in Hd as [_ ->].
    destruct r as [e|]; [|done].
    simpl in *. destruct ge; [by specialize (Hcancel eq_refl)|by destruct Hgerr].
  - destruct ts as [| | |r|r|r|r]; try done; [by left|].
    destruct tp as [| | |r'|r'|r'|r']; try done. by right; left.
Qed.

Lemma rest_states_witness :
  run any_component ok_world trace_start_nil init
    = Some (after any_component ok_world trace_start_nil) ∧
  quiescent ok_world (after any_component ok_world trace_start_nil) ∧
  (t_start (after any_component ok_world trace_start_nil) = TCalled ∨
   t_stop (after any_component ok_world trace_start_nil) = TCalled ∨
   (pc (after any_component ok_world trace_start_nil) = PcAwait ∧
    ctx_done (after any_component ok_world trace_start_nil) = false ∧
    t_start (after any_component ok_world trace_start_nil) = TDone None)).
Proof.
  assert (quiescent ok_world (after any_component ok_world trace_start_nil)) as Hq.
  { split; [vm_compute; reflexivity|]. intros []; vm_compute; reflexivity. }
  split; [vm_compute; reflexivity|]. split; [exact Hq|].
  apply (rest_states any_component ok_world trace_start_nil
           (after any_component ok_world trace_start_nil));
    [vm_compute; reflexivity | exact Hq | vm_compute; reflexivity].
Defined.

Lemma run_moves c w tr : ∀ s s',
  run c w tr s = Some s' → (moves tr + rank s' ≤ rank s)%nat.
Proof.
  induction tr as [|l tr IH]; simpl; intros s s' Hrun.
  - simplify_eq. lia.
  - destruct (exec c w l s) as [s1|] eqn:Hex; [|done].
    pose proof (IH _ _ Hrun) as Htr.
    destruct l; try (pose proof (exec_rank _ _ _ _ _ Hex ltac:(done)); lia).
    simpl in Hex. destruct (notify s); [|done]. simplify_eq.
    by destruct s.
Qed.

(** X8: a run of [start] is made of at most 31 steps of its goroutines
    and of the server, however many signals arrive in between. *)
Theorem runs_are_bounded c w tr s :
  run c w tr init = Some s → (moves tr ≤ 31)%nat.
Proof.
  intros Hrun. pose proof (run_moves _ _ _ _ _ Hrun) as H.
  change (rank init) with 31%nat in H. lia.
Qed.

Lemma runs_are_bounded_witness :
  run gated_component ok_world trace_success init
    = Some (after gated_component ok_world trace_success) ∧
  (moves trace_success ≤ 31)%nat.
Proof.
  split; [vm_compute; reflexivity|].
  apply (runs_are_bounded gated_component ok_world trace_success
           (after gated_component ok_world trace_success)).
  vm_compute; reflexivity.
Defined.

(** ** The order of the two calls *)

(** X9: nothing makes [s.Stop()] wait for [s.Start()]: whenever the
    context is done while the first goroutine has not entered [s.Start()]
    yet, the goroutines can go on by themselves to a state in which
    [s.Stop()] has been called and [s.Start()] has not. *)
Theorem stop_may_precede_start c w tr s :
  run c w tr init = Some s → t_start s = TSpawned → ctx_done s = true →
  ∃ tr' s', Forall (λ l, internal l = true) tr' ∧ run c w tr' s = Some s' ∧
            stop_calls s' = 1%nat ∧ start_calls s' = 0%nat.
Proof.
  intros Hrun Hts Hdone.
  assert (Inv w s) as [Hwg Hcs Hcp _ _ _ _ _ _ _ Hshape]
    by (apply (reachable_inv c); by exists tr).
  clear Hrun. revert Hwg Hcs Hcp Hshape Hts Hdone.
  unfold pc_shape, ctx_done.
  destruct s as [p sv nt sd ec n eo ge ts tp sc sp lg]; simpl.
  intros -> -> -> Hshape -> Hdone.
  destruct p; destruct_and?; simplify_eq/=; try done.
  - exists [Main; Main; Go Stop]. eexists. split; [by repeat constructor|].
    simpl. unfold main_step, ctx_done; simpl. rewrite Hdone. simpl. done.
  - exists [Main; Go Stop]. eexists. split; [by repeat constructor|]. done.
  - destruct tp as [| | |r'|r'|r'|r']; try done.
    all: try (exists []; eexists; split; [constructor|]; done).
    exists [Go Stop]. eexists. split; [by repeat constructor|]. done.
  - by destruct_or?; destruct_and?.
Qed.

Lemma stop_may_precede_start_witness :
  run any_component ok_world [Main; Main; Main; Main; Main; Signal] init
    = Some (after any_component ok_world [Main; Main; Main; Main; Main; Signal]) ∧
  t_start (after any_component ok_world [Main; Main; Main; Main; Main; Signal])
    = TSpawned ∧
  ∃ tr' s', Forall (λ l, internal l = true) tr' ∧
            run any_component ok_world tr'
              (after any_component ok_world [Main; Main; Main; Main; Main; Signal])
              = Some s' ∧
            stop_calls s' = 1%nat ∧ start_calls s' = 0%nat.
Proof.
  split; [vm_compute; reflexivity|]. split; [vm_compute; reflexivity|].
  apply (stop_may_precede_start any_component ok_world
           [Main; Main; Main; Main; Main; Signal]
           (after any_component ok_world [Main; Main; Main; Main; Main; Signal]));
    vm_compute; reflexivity.
Defined.

(** X10: the first error that reaches the group is the one it keeps:
    once [g.err] is set, nothing in the rest of the run changes it. *)
Theorem first_error_sticks c w tr s tr' s' e :
  run c w tr init = Some s → gerr s = Some e →
  run c w tr' s = Some s' → gerr s' = Some e.
Proof.
  intros Hrun He Hrun'.
  assert (Inv w s) as Hinv by (apply (reachable_inv c); by exists tr).
  clear Hrun. revert s Hinv He Hrun'.
  induction tr' as [|l tr' IH]; simpl; intros s Hinv He Hrun'; [by simplify_eq|].
  destruct (exec c w l s) as [s1|] eqn:Hex; [|done].
  apply (IH s1); [eauto using inv_exec| |done].
  destruct Hinv as [_ _ _ Honce _ _ _ _ _ _ _]. clear IH Hrun'.
  revert Honce He Hex.
  destruct s as [p sv nt sd ec n eo ge ts tp sc sp lg]; simpl. intros -> ->.
  destruct l as [|k| |k r]; simpl.
  - unfold main_step; simpl.
    destruct p; intros; repeat case_match; by simplify_eq/=.
  - unfold task_step, once_record.
    destruct k; simpl; intros; repeat case_match; by simplify_eq/=.
  - intros; case_match; by simplify_eq/=.
  - destruct k; simpl; intros; repeat case_match; by simplify_eq/=.
Qed.

Lemma first_error_sticks_witness :
  run any_component ok_world (trace_start_boom ++ [Go Start; Go Start]) init
    = Some (after any_component ok_world (trace_start_boom ++ [Go Start; Go Start])) ∧
  gerr (after any_component ok_world trace_boom_bang) = Some "boom".
Proof.
  split; [vm_compute; reflexivity|].
  apply (first_error_sticks any_component ok_world
           (trace_start_boom ++ [Go Start; Go Start])
           (after any_component ok_world (trace_start_boom ++ [Go Start; Go Start]))
           [Main; Main; Go Stop; Returns Stop (Some "bang");
            Go Stop; Go Stop; Go Stop; Go Start; Main]
           (after any_component ok_world trace_boom_bang) "boom");
    vm_compute; reflexivity.
Defined.

(** * Further properties of the readers of the environment *)

(** X11: a variable that is set to the empty string is not an unset one
    for [getStringOrDefault], which returns the empty string, but it is
    for [getIntOrDefault], which returns the default. *)
Theorem empty_value (E : Environ) (name ds : string) (di : Z) :
  LookupEnv E name = Some "" →
  getStringOrDefault E name ds = "" ∧ getIntOrDefault E name di = di.
Proof.
  intros Hname. unfold getStringOrDefault, getIntOrDefault. by rewrite Hname.
Qed.

Lemma empty_value_witness :
  LookupEnv {[ "PORT" := "" ]} "PORT" = Some "" ∧
  getStringOrDefault {[ "PORT" := "" ]} "PORT" "8080" = "" ∧
  getIntOrDefault {[ "PORT" := "" ]} "PORT" 8080 = 8080.
Proof.
  split; [reflexivity|].
  apply (empty_value {[ "PORT" := "" ]} "PORT" "8080" 8080). reflexivity.
Defined.

Lemma digits_get s : ∀ acc n i c,
  strconv.digits s acc = Some n → String.get i s = Some c →
  is_Some (strconv.digit c).
Proof.
  induction s as [|c0 s IH]; simpl; intros acc n i c Hd Hget; [done|].
  destruct (strconv.digit c0) as [d0|] eqn:Hc0; [|done].
  destruct i as [|i]; [by simplify_eq|]. eauto.
Qed.

Lemma Atoi_get v n i c :
  strconv.Atoi v = Some n → String.get i v = Some c →
  is_Some (strconv.digit c) ∨ (i = 0%nat ∧ (c = "+"%char ∨ c = "-"%char)).
Proof.
  unfold strconv.Atoi, strconv.ParseUint.
  destruct v as [|c0 rest]; [done|].
  destruct (Ascii.eqb_spec c0 "+") as [->|Hplus];
    [|destruct (Ascii.eqb_spec c0 "-") as [->|Hminus]].
  - intros Hat Hget. destruct i as [|i]; simpl in Hget; [simplify_eq; auto|].
    left. destruct rest as [|c1 rest]; [done|].
    destruct (strconv.digits (String c1 rest) 0) as [un|] eqn:Hd; [|done].
    eauto using digits_get.
  - intros Hat Hget. destruct i as [|i]; simpl in Hget; [simplify_eq; auto|].
    left. destruct rest as [|c1 rest]; [done|].
    destruct (strconv.digits (String c1 rest) 0) as [un|] eqn:Hd; [|done].
    eauto using digits_get.
  - intros Hat Hget. left.
    destruct (strconv.digits (String c0 rest) 0) as [un|] eqn:Hd; [|done].
    eauto using digits_get.
Qed.

(** X12: a value with a character in it that is not a decimal digit,
    other than a sign in front, makes [getIntOrDefault] return the
    default: spaces, a decimal point, an underscore or a unit are not
    tolerated anywhere. *)
Theorem getIntOrDefault_stray_character (E : Environ) (name v : string) (d : Z)
    (i : nat) (c : ascii) :
  LookupEnv E name = Some v → String.get i v = Some c →
  strconv.digit c = None →
  i ≠ 0%nat ∨ (c ≠ "+"%char ∧ c ≠ "-"%char) →
  getIntOrDefault E name d = d.
Proof.
  intros Hname Hget Hc Hsign. unfold getIntOrDefault. rewrite Hname.
  destruct (strconv.Atoi v) as [n|] eqn:Hat; [|done].
  destruct (Atoi_get _ _ _ _ Hat Hget) as [[? Hd]|[-> Hs]].
  - congruence.
  - destruct Hsign as [?|[? ?]]; [done|]. by destruct Hs.
Qed.

Lemma getIntOrDefault_stray_character_witness :
  LookupEnv {[ "PORT" := "8080 " ]} "PORT" = Some "8080 " ∧
  getIntOrDefault {[ "PORT" := "8080 " ]} "PORT" 80 = 80.
Proof.
  split; [reflexivity|].
  apply (getIntOrDefault_stray_character {[ "PORT" := "8080 " ]} "PORT" "8080 " 80
           4 " "%char); [reflexivity | reflexivity | reflexivity | by left].
Defined.

Lemma Atoi_fits v n : strconv.Atoi v = Some n → minInt ≤ n ≤ maxInt.
Proof.
  unfold strconv.Atoi. destruct v as [|c0 rest]; [done|].
  destruct (if Ascii.eqb c0 "+" then (false, rest)
            else if Ascii.eqb c0 "-" then (true, rest)
            else (false, String c0 rest)) as [neg body].
  destruct (strconv.ParseUint body) as [un|]; [|done].
  destruct ((minInt <=? (if neg then - un else un)) &&
            ((if neg then - un else un) <=? maxInt)) eqn:Hr; [|done].
  intros [= <-]. apply andb_true_iff in Hr as [H1 H2]. lia.
Qed.

(** X13: what [getIntOrDefault] returns is the default or the number
    that [strconv.Atoi] reads from the value of the variable, nothing
    else; and it fits an [int] whenever the default does. *)
Theorem getIntOrDefault_result (E : Environ) (name : string) (d : Z) :
  (getIntOrDefault E name d = d ∨
   ∃ v, LookupEnv E name = Some v ∧
        strconv.Atoi v = Some (getIntOrDefault E name d)) ∧
  (minInt ≤ d ≤ maxInt → minInt ≤ getIntOrDefault E name d ≤ maxInt).
Proof.
  unfold getIntOrDefault.
  destruct (LookupEnv E name) as [v|] eqn:Hname; [|by split; [left|]].
  destruct (strconv.Atoi v) as [n|] eqn:Hat; [|by split; [left|]].
  split; [right; by exists v|]. intros _. by apply (Atoi_fits v).
Qed.

(** * Further properties of the endpoint resolver *)

(** X14: with a reader that returns the value of a variable that is set
    and the default of one that is not, SQS_ENDPOINT_URL decides alone:
    unset or empty, no service in no region is given an endpoint; set to a
    URL, that URL is the endpoint of SQS in every region, and every other
    service is given none. *)
Theorem resolver_follows_environment
    (ServiceID : string) (GetStringOrDefault : Environ → string → string → string)
    (E : Environ) :
  (∀ name d, LookupEnv E name = None → GetStringOrDefault E name d = d) →
  (∀ name d v, LookupEnv E name = Some v → GetStringOrDefault E name d = v) →
  (LookupEnv E "SQS_ENDPOINT_URL" = None ∨ LookupEnv E "SQS_ENDPOINT_URL" = Some "" →
   ∀ service region,
     createAWSEndpointResolver ServiceID GetStringOrDefault E service region
     = (aws.zeroEndpoint, Some aws.EndpointNotFoundError)) ∧
  (∀ u, LookupEnv E "SQS_ENDPOINT_URL" = Some u → u ≠ "" →
   ∀ service region,
     createAWSEndpointResolver ServiceID GetStringOrDefault E service region
     = if String.eqb service ServiceID
       then ({| aws.URL := u |}, None)
       else (aws.zeroEndpoint, Some aws.EndpointNotFoundError)).
Proof.
  intros Hunset Hset. unfold createAWSEndpointResolver, resolveEndpoint. split.
  - intros [Hu|Hu] service region.
    + by rewrite (Hunset _ _ Hu).
    + by rewrite (Hset _ _ _ Hu).
  - intros u Hu Hne service region. rewrite (Hset _ _ _ Hu).
    by apply String.eqb_neq in Hne as ->.
Qed.

Lemma resolver_follows_environment_witness :
  createAWSEndpointResolver "SQS" getStringOrDefault
    {[ "SQS_ENDPOINT_URL" := "" ]} "SQS" "eu-west-1"
  = (aws.zeroEndpoint, Some aws.EndpointNotFoundError).
Proof.
  apply (resolver_follows_environment "SQS" getStringOrDefault
           {[ "SQS_ENDPOINT_URL" := "" ]}).
  - intros name d Hname. unfold getStringOrDefault. by rewrite Hname.
  - intros name d v Hname. unfold getStringOrDefault. by rewrite Hname.
  - right. reflexivity.
Defined.

(** * Settings *)

(** X15: with readers that return the default of a variable that is not
    set, an environment that sets none of the variables of
    [setting_names] gives the database localhost:5432 with empty user,
    password and name, 10 open and 10 idle connections that live an hour,
    the queue the name "jobs" and a wait of 20 seconds, and the server
    localhost:8080. *)
Theorem settings_default_when_unset
    (Logger Config : Type)
    (GetStringOrDefault : Environ → string → string → string)
    (GetIntOrDefault GetDurationOrDefault : Environ → string → Z → Z)
    (E : Environ) (log : Logger) (awsConfig : Config) :
  (∀ name d, LookupEnv E name = None → GetStringOrDefault E name d = d) →
  (∀ name d, LookupEnv E name = None → GetIntOrDefault E name d = d) →
  (∀ name d, LookupEnv E name = None → GetDurationOrDefault E name d = d) →
  (∀ name, name ∈ setting_names → LookupEnv E name = None) →
  createDatabase Logger GetStringOrDefault GetIntOrDefault GetDurationOrDefault E log
  = {| storage.Host := "localhost"; storage.Port := 5432; storage.User := "";
       storage.Password := ""; storage.Name := "";
       storage.MaxOpenConnections := 10; storage.MaxIdleConnections := 10;
       storage.ConnectionMaxLifetime := 3600000000000; storage.Log := log |} ∧
  createQueue Logger Config GetStringOrDefault GetDurationOrDefault E log awsConfig
  = {| messaging.Config := awsConfig; messaging.Log := log;
       messaging.Name := "jobs"; messaging.WaitTime := 20000000000 |} ∧
  host GetStringOrDefault E = "localhost" ∧
  port GetIntOrDefault E = 8080.
Proof.
  intros Hs Hi Hd Hnone.
  assert (∀ name, name ∈ setting_names → ∀ d, GetStringOrDefault E name d = d) as Hs'
    by auto.
  assert (∀ name, name ∈ setting_names → ∀ d, GetIntOrDefault E name d = d) as Hi'
    by auto.
  assert (∀ name, name ∈ setting_names → ∀ d, GetDurationOrDefault E name d = d) as Hd'
    by auto.
  unfold createDatabase, createQueue, host, port, setting_names in *.
  rewrite !Hs', !Hi', !Hd' by set_solver. done.
Qed.

Lemma settings_default_when_unset_witness :
  host getStringOrDefault {[ "SQS_ENDPOINT_URL" := "http://localhost:4566" ]}
    = "localhost" ∧
  port getIntOrDefault {[ "SQS_ENDPOINT_URL" := "http://localhost:4566" ]} = 8080.
Proof.
  apply (settings_default_when_unset unit unit getStringOrDefault getIntOrDefault
           (λ E name d, match LookupEnv E name with None => d | Some _ => 0 end)
           {[ "SQS_ENDPOINT_URL" := "http://localhost:4566" ]} () ()).
  - intros name d Hname. unfold getStringOrDefault. by rewrite Hname.
  - intros name d Hname. unfold getIntOrDefault. by rewrite Hname.
  - intros name d Hname. by rewrite Hname.
  - intros name Hin. unfold setting_names in Hin.
    repeat (apply elem_of_cons in Hin as [->|Hin]; [reflexivity|]).
    by apply elem_of_nil in Hin.
Defined.

(** * The logger and its adapter *)

(** X16: [createLogger] fails only when the zap constructor it picked
    does, with that constructor's error; for an environment that is
    neither "production" nor "development" it does not fail and gives the
    logger that discards everything. *)
Theorem createLogger_errors
    (NewProduction NewDevelopment : option zap.Logger * option error) (env : string) :
  (env ≠ "production" → env ≠ "development" →
   createLogger NewProduction NewDevelopment env = (Some zap.Nop, None)) ∧
  (∀ e, (createLogger NewProduction NewDevelopment env).2 = Some e →
        (env = "production" ∧ NewProduction.2 = Some e) ∨
        (env = "development" ∧ NewDevelopment.2 = Some e)).
Proof.
  unfold createLogger.
  destruct (String.eqb_spec env "production") as [->|Hp]; simpl.
  - split; [done|]. intros e He. by left.
  - destruct (String.eqb_spec env "development") as [->|Hd]; simpl.
    + split; [done|]. intros e He. by right.
    + split; [done|]. by intros e.
Qed.

(** X17: the adapter makes at most one call on the logger, with the
    format and the arguments it was given: [Debugf] for a debug message,
    [Warnf] for a warning, and none at all for any other classification. *)
Theorem adapter_calls (V : Type) (Debug Warn classification format : string)
    (v : list V) :
  (length (createAWSLogAdapter V Debug Warn classification format v) ≤ 1)%nat ∧
  (createAWSLogAdapter V Debug Warn classification format v = [] ↔
   classification ≠ Debug ∧ classification ≠ Warn) ∧
  (∀ call, call ∈ createAWSLogAdapter V Debug Warn classification format v →
           (call = Debugf format v ∧ classification = Debug) ∨
           (call = Warnf format v ∧ classification = Warn)).
Proof.
  unfold createAWSLogAdapter.
  destruct (String.eqb_spec classification Debug) as [->|Hd]; simpl.
  - split; [lia|]. split; [split; [done|by intros [? _]]|].
    intros call Hin. apply list_elem_of_singleton in Hin. by left.
  - destruct (String.eqb_spec classification Warn) as [->|Hw]; simpl.
    + split; [lia|]. split; [split; [done|by intros [_ ?]]|].
      intros call Hin. apply list_elem_of_singleton in Hin. by right.
    + split; [lia|]. split; [done|]. intros call Hin. by apply elem_of_nil in Hin.
Qed.
